(** * Teardown routines of the clustering program ([src/free-memory.c])

    The four C functions of [free-memory.c] only read pointer arrays, follow
    [next] links and call [free].  They are embedded here as executable
    functions in a state-and-fault monad over an explicit memory:

    - a memory is a finite map from addresses to live blocks;
    - every read of an array element, every read of a [next] field and every
      effective [free] is appended to an event trace, so that "what was
      touched, and in which order" is a statement about the trace;
    - what C leaves undefined (null dereference, access to a block that is
      not live, out-of-bounds index, [free] of something that is not a live
      block) is a [Fault];
    - [size_t] values are natural numbers ([N]); the loop counters stay
      below their bounds, so no wrap-around arises. *)

From stdpp Require Import base numbers option list gmap fin_maps.

Open Scope Z_scope.

(** ** Memory model *)

Module Mem.

(** Pointers are addresses; the null pointer is address 0. *)
Abbreviation addr := Z (only parsing).
Definition NULL : addr := 0.

(** Modelled from the spec: [struct node] is declared in [declarations.h],
    which is not part of the sources.  The spec's data model gives a node a
    payload (a reference to a point) and the exclusively owned link [next];
    the teardown code only ever reads [next]. *)
Record node : Type := Node { payload : Z; next : addr }.

(** Modelled from the spec: [struct element] is declared in
    [declarations.h].  The only field the teardown code reads is [values],
    the owned feature vector of the point. *)
Record element : Type := Element { values : addr }.

(** The kinds of block the teardown code meets:
    - [BNode]: one [struct node];
    - [BPtrs]: an array of pointers ([struct node *[k]], [size_t *[c]],
      [double *[n]]);
    - [BPoints]: an array of [struct element];
    - [BData]: a row of [size_t] or [double] whose contents are never read
      by the teardown code. *)
Inductive block : Type :=
| BNode (nd : node)
| BPtrs (slots : list addr)
| BPoints (ps : list element)
| BData.

(** Observable memory events. *)
Inductive event : Type :=
| EvIndex (a : addr) (i : N)     (* read of element [i] of the array at [a] *)
| EvNext (p : addr)              (* read of [p->next] *)
| EvRelease (p : addr).          (* [free(p)] released the live block [p] *)

(** Undefined behaviours of the C source, made explicit. *)
Inductive fault : Type :=
| NullDeref                     (* read through the null pointer *)
| UseAfterFree (p : addr)        (* read of a block that was released *)
| InvalidAccess (p : addr)       (* read of something that is no such block *)
| OutOfBounds (a : addr) (i : N) (* index past the end of the array at [a] *)
| DoubleFree (p : addr)          (* [free] of a block already released *)
| InvalidFree (p : addr).        (* [free] of an address never allocated *)

Record state : Type := State {
  heap : gmap Z block;          (* the live blocks *)
  trace : list event            (* events so far, oldest first *)
}.

Inductive outcome (A : Type) : Type :=
| Ok (a : A) (st : state)
| Fault (f : fault)
| Timeout.                      (* a loop ran out of fuel *)
Arguments Ok {A} a st.
Arguments Fault {A} f.
Arguments Timeout {A}.

Definition M (A : Type) : Type := state → outcome A.

#[export] Instance M_ret : MRet M := λ A a st, Ok a st.
#[export] Instance M_bind : MBind M := λ A B f m st,
  match m st with
  | Ok a st' => f a st'
  | Fault e => Fault e
  | Timeout => Timeout
  end.

#[export] Instance event_eq_dec : EqDecision event.
Proof. solve_decision. Defined.
#[export] Instance fault_eq_dec : EqDecision fault.
Proof. solve_decision. Defined.

Definition ptr_eqb (p q : addr) : bool := Z.eqb p q.

Definition log (e : event) : M unit :=
  λ st, Ok tt (State (heap st) (trace st ++ [e])).

(** Has [p] been released earlier in this run? *)
Definition was_released (p : addr) (st : state) : bool :=
  bool_decide (EvRelease p ∈ trace st).

(** The fault of reading through a pointer that designates no suitable
    live block. *)
Definition bad_read {A} (p : addr) : M A :=
  λ st, if ptr_eqb p NULL then Fault NullDeref
        else if was_released p st then Fault (UseAfterFree p)
        else Fault (InvalidAccess p).

(** [p->next] *)
Definition load_next (p : addr) : M addr :=
  λ st, match heap st !! p with
        | Some (BNode nd) =>
            if ptr_eqb p NULL then Fault NullDeref
            else (log (EvNext p) ;; mret (next nd)) st
        | _ => bad_read p st
        end.

(** [A[i]] for an array of pointers *)
Definition load_slot (a : addr) (i : N) : M addr :=
  λ st, match heap st !! a with
        | Some (BPtrs slots) =>
            if ptr_eqb a NULL then Fault NullDeref
            else match slots !! N.to_nat i with
                 | Some p => (log (EvIndex a i) ;; mret p) st
                 | None => Fault (OutOfBounds a i)
                 end
        | _ => bad_read a st
        end.

(** [POINTS[j].values] *)
Definition load_values (a : addr) (j : N) : M addr :=
  λ st, match heap st !! a with
        | Some (BPoints ps) =>
            if ptr_eqb a NULL then Fault NullDeref
            else match ps !! N.to_nat j with
                 | Some e => (log (EvIndex a j) ;; mret (values e)) st
                 | None => Fault (OutOfBounds a j)
                 end
        | _ => bad_read a st
        end.

(** [free(p)]: no action on the null pointer; otherwise [p] must be a live
    block, which is removed from the memory.  Releasing what is not live is
    a double free when [p] was released before, an invalid free otherwise. *)
Definition free (p : addr) : M unit :=
  λ st, if ptr_eqb p NULL then Ok tt st
        else match heap st !! p with
             | Some _ => Ok tt (State (delete p (heap st)) (trace st ++ [EvRelease p]))
             | None => if was_released p st then Fault (DoubleFree p)
                       else Fault (InvalidFree p)
             end.

(** [n] rounds of a counted loop whose counter stands at [i]. *)
Fixpoint for_loop (n : nat) (i : N) (body : N → M unit) : M unit :=
  match n with
  | O => mret tt
  | S n' => body i ;; for_loop n' (N.succ i) body
  end.

(** [for (size_t i = 0; i < k; i++) body(i)] *)
Definition for_upto (k : N) (body : N → M unit) : M unit :=
  for_loop (N.to_nat k) 0%N body.

End Mem.

Import Mem.

(** ** The four functions of [free-memory.c] *)

(** The inner [while (ptr->next != NULL)] loop of [free_cluster_list].  The
    guard reads [ptr->next]; the body saves [ptr] in [prev], reads
    [ptr->next] again to advance, and frees [prev].  The result is the value
    of [ptr] at loop exit together with the number of completed iterations
    (a ghost counter, not a C variable). *)
Fixpoint while_next (fuel : nat) (ptr : addr) (iters : nat) : M (addr * nat) :=
  match fuel with
  | O => λ _, Timeout
  | S fuel' =>
      nx ← load_next ptr;
      if ptr_eqb nx NULL then mret (ptr, iters)
      else
        let prev := ptr in
        ptr' ← load_next ptr;
        free prev ;;
        while_next fuel' ptr' (S iters)
  end.

(** Every iteration releases one live block, so the number of live blocks
    bounds the number of iterations: with this much fuel the loop never
    stops for lack of fuel ([while_next_total] below). *)
Definition loop_fuel : M nat := λ st, Ok (S (size (heap st))) st.

(** The body of the outer loop once the head is read: the inner loop, then
    [free(ptr)] on the pointer the loop ended on.  The result is the ghost
    iteration count. *)
Definition free_chain (head : addr) : M nat :=
  fuel ← loop_fuel;
  r ← while_next fuel head 0;
  free (fst r) ;;
  mret (snd r).

Definition free_cluster_list (k : N) (PTR_CLUSTER_HEADS : addr) : M unit :=
  for_upto k (λ i,
    ptr ← load_slot PTR_CLUSTER_HEADS i;
    free_chain ptr ;; mret tt).

Definition free_category_indices (c : N) (CATEGORY_HEADS : addr) : M unit :=
  for_upto c (λ i, p ← load_slot CATEGORY_HEADS i; free p).

Definition free_distances (n : N) (DISTANCES : addr) : M unit :=
  for_upto n (λ i, p ← load_slot DISTANCES i; free p).

Definition free_points (n : N) (POINTS : addr) (i : N) : M unit :=
  for_upto i (λ j, p ← load_values POINTS j; free p).

(** ** Shapes of memory the functions are meant for *)

(** [lseg h p l]: following [next] from [p] in [h] visits exactly the nodes
    [l], all of them live [struct node] blocks, and ends at the null
    pointer. *)
Fixpoint lseg (h : gmap Z block) (p : addr) (l : list addr) : bool :=
  match l with
  | [] => ptr_eqb p NULL
  | a :: l' =>
      ptr_eqb p a && negb (ptr_eqb a NULL) &&
      match h !! a with
      | Some (BNode nd) => lseg h (next nd) l'
      | _ => false
      end
  end.

(** A cluster chain: a null-terminated list with at least one node. *)
Definition is_chain (h : gmap Z block) (p : addr) (l : list addr) : bool :=
  negb (bool_decide (l = [])) && lseg h p l.

(** The leading head pointers are the heads of the given chains. *)
Fixpoint chains_at (h : gmap Z block) (heads : list addr)
    (chains : list (list addr)) {struct chains} : bool :=
  match chains, heads with
  | [], _ => true
  | l :: cs, p :: ps => is_chain h p l && chains_at h ps cs
  | _ :: _, [] => false
  end.

(** A cluster list of [k] chains stored at [base]: the array holds at least
    [k] heads, head [i] starts chain [i], and no node belongs to two chains
    (nor twice to one). *)
Definition cluster_list (st : state) (base : addr) (k : N)
    (chains : list (list addr)) : bool :=
  match heap st !! base with
  | Some (BPtrs heads) =>
      negb (ptr_eqb base NULL) &&
      bool_decide (length chains = N.to_nat k) &&
      chains_at (heap st) heads chains &&
      bool_decide (NoDup (concat chains))
  | _ => false
  end.

(** The memory after the blocks [ps] have been released, in that order. *)
Definition drop_blocks (h : gmap Z block) (ps : list addr) : gmap Z block :=
  foldl (λ h p, delete p h) h ps.

(** The pointers released by a sequence of events, in order. *)
Definition releases_of (t : list event) : list addr :=
  omap (λ e, match e with EvRelease p => Some p | _ => None end) t.

(** The array indices read by a sequence of events. *)
Definition indices_of (t : list event) : list N :=
  omap (λ e, match e with EvIndex _ i => Some i | _ => None end) t.

(** Events of the traversal of one chain: every node but the last is read
    by the guard, read again to advance, and then released; the last node is
    read by the guard and released after the loop. *)
Fixpoint chain_trace (l : list addr) : list event :=
  match l with
  | [] => []
  | [a] => [EvNext a; EvRelease a]
  | a :: l' => EvNext a :: EvNext a :: EvRelease a :: chain_trace l'
  end.

(** The part of [chain_trace] produced by the loop itself, up to the exit
    test that finds the last node's successor absent. *)
Fixpoint loop_trace (l : list addr) : list event :=
  match l with
  | [] => []
  | [a] => [EvNext a]
  | a :: l' => EvNext a :: EvNext a :: EvRelease a :: loop_trace l'
  end.

(** Events of releasing the chains of the clusters [i], [i+1], ...: the read
    of the head, then the traversal of the chain. *)
Fixpoint clusters_trace (base : addr) (i : N) (chains : list (list addr))
    : list event :=
  match chains with
  | [] => []
  | l :: cs => EvIndex base i :: chain_trace l ++ clusters_trace base (N.succ i) cs
  end.

(** The indices [i], [i+1], ..., [i+n-1] visited by a counted loop. *)
Fixpoint N_seq (i : N) (n : nat) : list N :=
  match n with
  | O => []
  | S n' => i :: N_seq (N.succ i) n'
  end.

(** The pointer stored at index [i] of an array with contents [vals]. *)
Definition slot_of (vals : list addr) (i : N) : addr :=
  vals !!! N.to_nat i.

(** The non-null pointers among [ps], in order. *)
Definition non_null (ps : list addr) : list addr :=
  filter (λ p, p ≠ NULL) ps.

(** Releasing the slots of an array in a given order of indices, each slot
    being read by [rd] and passed to [free].  With the indices in increasing
    order this is the loop of [free_category_indices], [free_distances] and
    [free_points]. *)
Definition release_in (rd : N → M addr) (order : list N) : M unit :=
  foldr (λ i k, (p ← rd i; free p) ;; k) (mret tt) order.

(** Events of releasing slot [i], which holds [p]: the index read, and the
    release unless the slot is null. *)
Definition slot_events (base : addr) (i : N) (p : addr) : list event :=
  EvIndex base i :: (if ptr_eqb p NULL then [] else [EvRelease p]).

(** Events of releasing the slots of the array [vals] at [base], in the
    given order of indices. *)
Definition release_trace (base : addr) (vals : list addr) (order : list N)
    : list event :=
  flat_map (λ i, slot_events base i (slot_of vals i)) order.

(** The events added to the trace between two states of one run. *)
Definition events_since (st st' : state) : list event :=
  drop (length (trace st)) (trace st').

(** Two outcomes with the same effect on memory: both succeed, leaving the
    same live blocks after releasing the same blocks (in some order), or
    both are undefined. *)
Definition same_effect (o1 o2 : outcome unit) : Prop :=
  match o1, o2 with
  | Ok _ s1, Ok _ s2 =>
      heap s1 = heap s2 ∧ releases_of (trace s1) ≡ₚ releases_of (trace s2)
  | Fault _, Fault _ => True
  | _, _ => False
  end.

(** The slots can all be released: the non-null ones are distinct live
    blocks. *)
Definition releasable (st : state) (ps : list addr) : Prop :=
  NoDup (non_null ps) ∧ ∀ p, p ∈ non_null ps → is_Some (heap st !! p).

(** [p] is a live row of data. *)
Definition is_data (h : gmap Z block) (p : addr) : bool :=
  match h !! p with
  | Some BData => true
  | _ => false
  end.

(** The slots of a category index or of a distance matrix: every slot is
    null or an independently allocated row, and no row is shared by two
    slots. *)
Definition owns_rows (h : gmap Z block) (slots : list addr) : bool :=
  bool_decide (NoDup (non_null slots)) &&
  forallb (λ p, ptr_eqb p NULL || is_data h p) slots.

(** The feature vectors of successfully loaded points: distinct, non-null,
    live allocations. *)
Definition owns_values (h : gmap Z block) (vs : list addr) : bool :=
  bool_decide (NoDup vs) &&
  forallb (λ p, negb (ptr_eqb p NULL) && is_data h p) vs.

(** No block is read after it was released: whenever a release of [p]
    occurs in the trace, no read of [p->next] follows it. *)
Definition never_reads_released (t : list event) : Prop :=
  ∀ t1 p t2, t = t1 ++ EvRelease p :: t2 → EvNext p ∉ t2.

(** What is known after [j] rounds of the loop of [free_points] started in
    [st]: the memory is the initial one without the released blocks, and
    every released block is the [values] pointer of a point of index below
    [j]. *)
Definition points_inv (st : state) (base : addr) (j : N) (s : state) : Prop :=
  ∃ t, trace s = trace st ++ t ∧
       heap s = drop_blocks (heap st) (releases_of t) ∧
       ∀ p, p ∈ releases_of t →
         ∃ ps k e, heap st !! base = Some (BPoints ps) ∧ (k < j)%N ∧
                   ps !! N.to_nat k = Some e ∧ values e = p.

(** [lpath h p l q]: following [next] from [p] in [h] visits the live nodes
    [l] and then arrives at [q], which need not be null nor live. *)
Fixpoint lpath (h : gmap Z block) (p : addr) (l : list addr) (q : addr) : bool :=
  match l with
  | [] => ptr_eqb p q
  | a :: l' =>
      ptr_eqb p a && negb (ptr_eqb a NULL) &&
      match h !! a with
      | Some (BNode nd) => lpath h (next nd) l' q
      | _ => false
      end
  end.

(** Events of the loop iterations that walk along the nodes [l]. *)
Definition walk_trace (l : list addr) : list event :=
  flat_map (λ a, [EvNext a; EvNext a; EvRelease a]) l.

(** What is known of a state [s] reached from [st] by reads of [next]
    fields, reads of slots and releases of nodes: the memory is the initial
    one without the released blocks, each of which was a live
    [struct node]. *)
Definition nodes_only (st s : state) : Prop :=
  ∃ t, trace s = trace st ++ t ∧
       heap s = drop_blocks (heap st) (releases_of t) ∧
       NoDup (releases_of t) ∧
       ∀ p, p ∈ releases_of t → ∃ nd, heap st !! p = Some (BNode nd).

(** What is known after [j] rounds of the loop of [free_category_indices]
    or [free_distances] started in [st]: the memory is the initial one
    without the released blocks, and every released block is the non-null
    pointer held by a slot of index below [j]. *)
Definition slots_inv (st : state) (base : addr) (j : N) (s : state) : Prop :=
  ∃ t, trace s = trace st ++ t ∧
       heap s = drop_blocks (heap st) (releases_of t) ∧
       ∀ p, p ∈ releases_of t →
         ∃ slots k, heap st !! base = Some (BPtrs slots) ∧ (k < j)%N ∧
                    slots !! N.to_nat k = Some p ∧ p ≠ NULL.

(** More sample memories. *)
Module Sample2.

(** A chain that runs 1, 2, 3 and then back into node 2. *)
Definition lasso : state :=
  State (list_to_map
           [(100, BPtrs [1]);
            (1, BNode (Node 7 2)); (2, BNode (Node 8 3));
            (3, BNode (Node 9 2))]) [].

(** A category index at 100 and a distance matrix at 200. *)
Definition two_arrays : state :=
  State (list_to_map
           [(100, BPtrs [0; 5; 6]); (200, BPtrs [7; 0]);
            (5, BData); (6, BData); (7, BData)]) [].


(** Three clusters and a category index in one memory. *)
Definition mixed : state :=
  State (list_to_map
           [(100, BPtrs [1; 2; 4]);
            (1, BNode (Node 7 0));
            (2, BNode (Node 8 3)); (3, BNode (Node 9 0));
            (4, BNode (Node 5 0));
            (200, BPtrs [0; 5]); (5, BData)]) [].

End Sample2.

(** ** Sample memories

    Concrete memories on which the statements below are exercised. *)

Module Sample.

(** Three clusters with chains of lengths 1, 2 and 1; the head array is
    at address 100. *)
Definition clusters : state :=
  State (list_to_map
           [(100, BPtrs [1; 2; 4]);
            (1, BNode (Node 7 0));
            (2, BNode (Node 8 3)); (3, BNode (Node 9 0));
            (4, BNode (Node 5 0))]) [].

(** The same array with the head of the second cluster absent. *)
Definition null_head : state :=
  State (list_to_map
           [(100, BPtrs [1; 0; 4]);
            (1, BNode (Node 7 0)); (4, BNode (Node 5 0))]) [].

(** Two heads that share one node. *)
Definition shared_head : state :=
  State (list_to_map [(100, BPtrs [1; 1]); (1, BNode (Node 7 0))]) [].

(** Four category slots, two of them null. *)
Definition categories : state :=
  State (list_to_map [(100, BPtrs [0; 5; 0; 6]); (5, BData); (6, BData)]) [].

(** Five points of which the loader allocated three; the [values] fields
    of the last two hold garbage. *)
Definition points : state :=
  State (list_to_map
           [(100, BPoints [Element 5; Element 6; Element 7;
                           Element 99; Element 0]);
            (5, BData); (6, BData); (7, BData)]) [].

End Sample.

(** ** Basic facts about the monad and the memory operations *)

Section Steps.
Implicit Types (st : state) (p q a : addr) (h : gmap Z block).

Lemma bind_unfold {A B} (m : M A) (f : A → M B) st :
  (m ≫= f) st =
  match m st with Ok x st' => f x st' | Fault e => Fault e | Timeout => Timeout end.
Proof. reflexivity. Qed.

Lemma bind_ok {A B} (m : M A) (f : A → M B) st x st' :
  m st = Ok x st' → (m ≫= f) st = f x st'.
Proof. intros E. rewrite bind_unfold, E. reflexivity. Qed.

Lemma bind_fault {A B} (m : M A) (f : A → M B) st e :
  m st = Fault e → (m ≫= f) st = Fault e.
Proof. intros E. rewrite bind_unfold, E. reflexivity. Qed.

Lemma bind_ext {A B} (m : M A) (f g : A → M B) st :
  (∀ x st', f x st' = g x st') → (m ≫= f) st = (m ≫= g) st.
Proof. intros E. rewrite !bind_unfold. destruct (m st); [apply E|done..]. Qed.

Lemma ptr_eqb_eq p q : ptr_eqb p q = true ↔ p = q.
Proof. apply Z.eqb_eq. Qed.

Lemma ptr_eqb_neq p q : ptr_eqb p q = false ↔ p ≠ q.
Proof. apply Z.eqb_neq. Qed.

Lemma ptr_eqb_refl p : ptr_eqb p p = true.
Proof. apply Z.eqb_refl. Qed.

Lemma load_next_ok st p nd :
  heap st !! p = Some (BNode nd) → p ≠ NULL →
  load_next p st = Ok (next nd) (State (heap st) (trace st ++ [EvNext p])).
Proof.
  intros Hp Hn. unfold load_next. rewrite Hp.
  apply ptr_eqb_neq in Hn. rewrite Hn. reflexivity.
Qed.

Lemma load_slot_ok st a i slots p :
  heap st !! a = Some (BPtrs slots) → a ≠ NULL →
  slots !! N.to_nat i = Some p →
  load_slot a i st = Ok p (State (heap st) (trace st ++ [EvIndex a i])).
Proof.
  intros Ha Hn Hi. unfold load_slot. rewrite Ha.
  apply ptr_eqb_neq in Hn. rewrite Hn, Hi. reflexivity.
Qed.

Lemma load_values_ok st a j ps e :
  heap st !! a = Some (BPoints ps) → a ≠ NULL →
  ps !! N.to_nat j = Some e →
  load_values a j st = Ok (values e) (State (heap st) (trace st ++ [EvIndex a j])).
Proof.
  intros Ha Hn Hj. unfold load_values. rewrite Ha.
  apply ptr_eqb_neq in Hn. rewrite Hn, Hj. reflexivity.
Qed.

Lemma free_null st : free NULL st = Ok tt st.
Proof. reflexivity. Qed.

Lemma free_live st p :
  p ≠ NULL → is_Some (heap st !! p) →
  free p st = Ok tt (State (delete p (heap st)) (trace st ++ [EvRelease p])).
Proof.
  intros Hn [b Hb]. unfold free.
  apply ptr_eqb_neq in Hn. rewrite Hn, Hb. reflexivity.
Qed.

Lemma free_dead st p :
  p ≠ NULL → heap st !! p = None → ∃ f, free p st = Fault f.
Proof.
  intros Hn Hb. unfold free.
  apply ptr_eqb_neq in Hn. rewrite Hn, Hb.
  destruct (was_released p st); eauto.
Qed.

(** A successful [free] either did nothing (null) or released a live
    block. *)
Lemma free_inv st p u st' :
  free p st = Ok u st' →
  (p = NULL ∧ st' = st) ∨
  (p ≠ NULL ∧ is_Some (heap st !! p) ∧
   st' = State (delete p (heap st)) (trace st ++ [EvRelease p])).
Proof.
  unfold free. destruct (ptr_eqb p NULL) eqn:E.
  - apply ptr_eqb_eq in E. intros [= <-]. by left.
  - apply ptr_eqb_neq in E. destruct (heap st !! p) eqn:Hp.
    + intros [= <-]. right. eauto.
    + destruct (was_released p st); discriminate.
Qed.

(** A successful read of [p->next] found a live node at a non-null [p]
    and changed nothing but the trace. *)
Lemma load_next_inv st p q st' :
  load_next p st = Ok q st' →
  p ≠ NULL ∧ ∃ nd, heap st !! p = Some (BNode nd) ∧ q = next nd ∧
  st' = State (heap st) (trace st ++ [EvNext p]).
Proof.
  unfold load_next, bad_read.
  destruct (heap st !! p) as [[nd| | |]|] eqn:Hp;
    destruct (ptr_eqb p NULL) eqn:E; try discriminate;
    try (destruct (was_released p st); discriminate).
  apply ptr_eqb_neq in E. intros [= <- <-]. eauto.
Qed.

Lemma load_next_no_null_fault st p :
  p ≠ NULL → load_next p st ≠ Fault NullDeref.
Proof.
  intros Hn%ptr_eqb_neq. unfold load_next, bad_read. rewrite Hn.
  destruct (heap st !! p) as [[nd| | |]|]; try done;
    destruct (was_released p st); done.
Qed.

Lemma free_no_null_fault st p : free p st ≠ Fault NullDeref.
Proof.
  unfold free. destruct (ptr_eqb p NULL); [done|].
  destruct (heap st !! p); [done|]. destruct (was_released p st); done.
Qed.

Lemma free_no_timeout st p : free p st ≠ Timeout.
Proof.
  unfold free. destruct (ptr_eqb p NULL); [done|].
  destruct (heap st !! p); [done|]. destruct (was_released p st); done.
Qed.

Lemma load_next_no_timeout st p : load_next p st ≠ Timeout.
Proof.
  unfold load_next, bad_read.
  destruct (heap st !! p) as [[nd| | |]|]; destruct (ptr_eqb p NULL);
    try done; destruct (was_released p st); done.
Qed.

Lemma load_slot_no_timeout st a i : load_slot a i st ≠ Timeout.
Proof.
  unfold load_slot, bad_read.
  destruct (heap st !! a) as [[nd|sl| |]|]; destruct (ptr_eqb a NULL);
    try done; try (destruct (was_released a st); done).
  destruct (sl !! N.to_nat i); done.
Qed.

Lemma drop_blocks_cons h p ps :
  drop_blocks h (p :: ps) = drop_blocks (delete p h) ps.
Proof. reflexivity. Qed.

(** Lookup in a memory from which blocks were released. *)
Lemma lookup_drop_blocks h ps q :
  drop_blocks h ps !! q = if decide (q ∈ ps) then None else h !! q.
Proof.
  revert h. induction ps as [|p ps IH]; intros h.
  - case_decide as Hin; [|done]. by apply elem_of_nil in Hin.
  - rewrite drop_blocks_cons, IH, lookup_delete.
    repeat case_decide; subst; try done; exfalso;
      set_unfold; intuition congruence.
Qed.

Lemma drop_blocks_app h ps qs :
  drop_blocks h (ps ++ qs) = drop_blocks (drop_blocks h ps) qs.
Proof. apply foldl_app. Qed.

(** Releasing the same blocks in another order leaves the same memory. *)
Lemma drop_blocks_perm h ps qs :
  ps ≡ₚ qs → drop_blocks h ps = drop_blocks h qs.
Proof.
  intros Hp. apply map_eq. intros q. rewrite !lookup_drop_blocks.
  repeat case_decide; try done; exfalso.
  - rewrite Hp in *. done.
  - rewrite Hp in *. done.
Qed.

Lemma releases_of_app t1 t2 :
  releases_of (t1 ++ t2) = releases_of t1 ++ releases_of t2.
Proof. apply omap_app. Qed.

Lemma indices_of_app t1 t2 :
  indices_of (t1 ++ t2) = indices_of t1 ++ indices_of t2.
Proof. apply omap_app. Qed.

End Steps.

(** ** Null-terminated chains *)

Section Chains.
Implicit Types (st : state) (p q a : addr) (h : gmap Z block)
  (l : list addr).

Lemma last_cons_default l a b : List.last (b :: l) a = List.last l b.
Proof.
  revert a b. induction l as [|c l IH]; intros a b; [done|].
  change (List.last (b :: c :: l) a) with (List.last (c :: l) a).
  by rewrite !IH.
Qed.

Lemma lseg_nil_inv h p : lseg h p [] = true → p = NULL.
Proof. apply ptr_eqb_eq. Qed.

Lemma lseg_cons_inv h p a l :
  lseg h p (a :: l) = true →
  p = a ∧ a ≠ NULL ∧
  ∃ nd, h !! a = Some (BNode nd) ∧ lseg h (next nd) l = true.
Proof.
  cbn [lseg]. intros H.
  apply andb_true_iff in H as [H Hrest].
  apply andb_true_iff in H as [Hp Ha].
  apply ptr_eqb_eq in Hp. apply negb_true_iff, ptr_eqb_neq in Ha.
  destruct (h !! a) as [[nd| | |]|]; try discriminate. eauto.
Qed.

Lemma lseg_cons_intro h a l nd :
  a ≠ NULL → h !! a = Some (BNode nd) → lseg h (next nd) l = true →
  lseg h a (a :: l) = true.
Proof.
  intros Ha Hnd Hl. cbn [lseg]. rewrite Hnd, Hl, ptr_eqb_refl.
  apply ptr_eqb_neq in Ha. by rewrite Ha.
Qed.

(** Every node of a chain is a live [struct node] at a non-null address. *)
Lemma lseg_live h p l a :
  lseg h p l = true → a ∈ l → a ≠ NULL ∧ ∃ nd, h !! a = Some (BNode nd).
Proof.
  revert p. induction l as [|b l IH]; intros p Hl Hin.
  - by apply elem_of_nil in Hin.
  - apply lseg_cons_inv in Hl as (-> & Hb & nd & Hnd & Hl).
    apply elem_of_cons in Hin as [->|Hin]; eauto.
Qed.

(** Releasing a block outside a chain leaves the chain intact. *)
Lemma lseg_delete h p l q :
  q ∉ l → lseg h p l = true → lseg (delete q h) p l = true.
Proof.
  revert p. induction l as [|b l IH]; intros p Hq Hl; [done|].
  apply lseg_cons_inv in Hl as (-> & Hb & nd & Hnd & Hl).
  apply not_elem_of_cons in Hq as [Hqb Hq].
  apply lseg_cons_intro with nd; auto.
  by rewrite lookup_delete_ne.
Qed.

Lemma lseg_drop_blocks h p l qs :
  (∀ q, q ∈ qs → q ∉ l) → lseg h p l = true →
  lseg (drop_blocks h qs) p l = true.
Proof.
  revert h. induction qs as [|q qs IH]; intros h Hd Hl; [done|].
  rewrite drop_blocks_cons. apply IH.
  - intros q' Hq'. apply Hd. by right.
  - apply lseg_delete; [|done]. apply Hd. by left.
Qed.

(** The list of nodes reached from a pointer is unique. *)
Lemma lseg_functional h p l1 l2 :
  lseg h p l1 = true → lseg h p l2 = true → l1 = l2.
Proof.
  revert p l2. induction l1 as [|a l1 IH]; intros p [|b l2] H1 H2.
  - done.
  - apply lseg_nil_inv in H1. apply lseg_cons_inv in H2 as (-> & Hb & _).
    congruence.
  - apply lseg_nil_inv in H2. apply lseg_cons_inv in H1 as (-> & Ha & _).
    congruence.
  - apply lseg_cons_inv in H1 as (-> & _ & nd1 & Hn1 & H1).
    apply lseg_cons_inv in H2 as (<- & _ & nd2 & Hn2 & H2).
    rewrite Hn1 in Hn2. injection Hn2 as <-.
    f_equal. eauto.
Qed.

Lemma lseg_suffix h p l1 a l2 :
  lseg h p (l1 ++ a :: l2) = true → lseg h a (a :: l2) = true.
Proof.
  revert p. induction l1 as [|b l1 IH]; intros p Hl.
  - simpl in Hl. by apply lseg_cons_inv in Hl as Hl'; destruct Hl' as [-> _].
  - simpl in Hl. apply lseg_cons_inv in Hl as (-> & _ & nd & _ & Hl). eauto.
Qed.

(** A null-terminated chain is acyclic: no node occurs twice. *)
Lemma lseg_NoDup h p l : lseg h p l = true → NoDup l.
Proof.
  revert p. induction l as [|a l IH]; intros p Hl; [constructor|].
  pose proof Hl as Hl0.
  apply lseg_cons_inv in Hl as (-> & Ha & nd & Hnd & Hl).
  constructor; [|eauto].
  intros Hin. apply list_elem_of_split in Hin as (l1 & l2 & ->).
  pose proof (lseg_suffix _ _ _ _ _ Hl) as Hs.
  pose proof (lseg_functional _ _ _ _ Hl0 Hs) as Heq.
  apply (f_equal length) in Heq. simpl in Heq.
  rewrite length_app in Heq. simpl in Heq. lia.
Qed.

(** One iteration of the loop on a node that has a successor: the node is
    read by the guard, read again to advance, and released; the loop goes on
    from the successor with the node gone from memory. *)
Lemma while_next_step fuel a nd it st :
  heap st !! a = Some (BNode nd) → a ≠ NULL → next nd ≠ NULL →
  while_next (S fuel) a it st =
  while_next fuel (next nd) (S it)
    (State (delete a (heap st))
           (trace st ++ [EvNext a; EvNext a; EvRelease a])).
Proof.
  intros Hnd Ha Hnx.
  cbn [while_next]. rewrite (bind_ok _ _ _ _ _ (load_next_ok _ _ _ Hnd Ha)).
  apply ptr_eqb_neq in Hnx as Hnx'. rewrite Hnx'. cbn zeta.
  erewrite bind_ok; [|by apply load_next_ok].
  erewrite bind_ok; [|by apply free_live; [|cbn [heap]; rewrite Hnd]].
  cbn [heap trace]. by rewrite <- !app_assoc.
Qed.

(** The loop exits, without a further iteration, on a node that has no
    successor. *)
Lemma while_next_exit fuel a nd it st :
  heap st !! a = Some (BNode nd) → a ≠ NULL → next nd = NULL →
  while_next (S fuel) a it st =
  Ok (a, it) (State (heap st) (trace st ++ [EvNext a])).
Proof.
  intros Hnd Ha Hnx.
  cbn [while_next]. rewrite (bind_ok _ _ _ _ _ (load_next_ok _ _ _ Hnd Ha)).
  by rewrite Hnx, ptr_eqb_refl.
Qed.

(** What the loop does on a chain [a :: l]: it exits with [ptr] on the
    last node after one iteration per other node, having released all
    nodes but the last. *)
Lemma while_next_chain l : ∀ a fuel it st,
  lseg (heap st) a (a :: l) = true →
  (length l < fuel)%nat →
  while_next fuel a it st =
    Ok (List.last l a, (it + length l)%nat)
       (State (drop_blocks (heap st) (removelast (a :: l)))
              (trace st ++ loop_trace (a :: l))).
Proof.
  induction l as [|b l IH]; intros a fuel it st Hl Hfuel;
    (destruct fuel as [|fuel]; [cbn [length] in Hfuel; lia|]);
    pose proof (lseg_NoDup _ _ _ Hl) as [Hnotin _]%NoDup_cons;
    apply lseg_cons_inv in Hl as (_ & Ha & nd & Hnd & Hl).
  - apply lseg_nil_inv in Hl.
    rewrite (while_next_exit fuel a nd it st Hnd Ha Hl).
    simpl. by rewrite Nat.add_0_r.
  - pose proof Hl as (Hnx & Hb & _)%lseg_cons_inv.
    rewrite (while_next_step fuel a nd it st Hnd Ha) by (by rewrite Hnx).
    rewrite Hnx in *. rewrite IH.
    + change (removelast (a :: b :: l)) with (a :: removelast (b :: l)).
      rewrite drop_blocks_cons, last_cons_default. cbn [heap trace].
      replace (S it + length l)%nat with (it + length (b :: l))%nat
        by (cbn [length]; lia).
      change (loop_trace (a :: b :: l))
        with ([EvNext a; EvNext a; EvRelease a] ++ loop_trace (b :: l)).
      by rewrite <- !app_assoc.
    + cbn [heap]. by apply lseg_delete.
    + cbn [length] in Hfuel. lia.
Qed.

End Chains.

(** ** Releasing a whole cluster list *)

Section Clusters.
Implicit Types (st : state) (p q a base : addr) (h : gmap Z block)
  (l : list addr) (cs : list (list addr)).

(** Distinct live blocks are counted by the size of the memory. *)
Lemma live_le_size l : ∀ h,
  NoDup l → (∀ a, a ∈ l → is_Some (h !! a)) → (length l ≤ size h)%nat.
Proof.
  induction l as [|a l IH]; intros h Hnd Hlive; [simpl; lia|].
  apply NoDup_cons in Hnd as [Hnotin Hnd].
  assert (is_Some (h !! a)) as Ha by (apply Hlive; by left).
  pose proof (map_size_delete_Some a h Ha) as Hsz.
  assert (size h ≠ 0)%nat as Hnz.
  { destruct Ha as [b Hb]. apply map_size_ne_0_lookup_2 with a. eauto. }
  assert (length l ≤ size (delete a h))%nat as Hle.
  { apply IH; [done|]. intros b Hb.
    rewrite lookup_delete_ne by (intros ->; done).
    apply Hlive. by right. }
  cbn [length]. lia.
Qed.

Lemma chain_trace_loop l d :
  l ≠ [] → chain_trace l = loop_trace l ++ [EvRelease (List.last l d)].
Proof.
  induction l as [|a l IH]; intros Hne; [done|].
  destruct l as [|b l]; [done|].
  change (chain_trace (a :: b :: l))
    with (EvNext a :: EvNext a :: EvRelease a :: chain_trace (b :: l)).
  rewrite IH by done. reflexivity.
Qed.

Lemma is_chain_inv h p l :
  is_chain h p l = true → l ≠ [] ∧ lseg h p l = true.
Proof.
  unfold is_chain. intros [Hne Hl]%andb_true_iff. split; [|done].
  apply negb_true_iff, bool_decide_eq_false in Hne. done.
Qed.

Lemma is_chain_intro h p l :
  l ≠ [] → lseg h p l = true → is_chain h p l = true.
Proof.
  intros Hne Hl. unfold is_chain. rewrite Hl, andb_true_r.
  apply negb_true_iff, bool_decide_eq_false. done.
Qed.

(** One pass of the outer loop body on a well-formed chain: every node of
    the chain is released, in chain order; the loop ran once per node but
    the last. *)
Lemma free_chain_ok st p l :
  is_chain (heap st) p l = true →
  free_chain p st =
    Ok (length l - 1)%nat
       (State (drop_blocks (heap st) l) (trace st ++ chain_trace l)).
Proof.
  intros [Hne Hl]%is_chain_inv.
  destruct l as [|a l]; [done|].
  pose proof (lseg_NoDup _ _ _ Hl) as Hnd.
  assert (∀ b, b ∈ a :: l → b ≠ NULL ∧ ∃ nd, heap st !! b = Some (BNode nd))
    as Hlive by (intros b; by apply lseg_live with p).
  assert (length (a :: l) ≤ size (heap st))%nat as Hsz.
  { apply live_le_size; [done|]. intros b Hb.
    destruct (Hlive b Hb) as (_ & nd & ->). eauto. }
  pose proof Hl as Hl'.
  apply lseg_cons_inv in Hl' as (-> & _).
  unfold free_chain.
  rewrite (bind_ok loop_fuel _ st (S (size (heap st))) st) by done.
  assert (length l < S (size (heap st)))%nat as Hfuel
    by (cbn [length] in Hsz; lia).
  rewrite (bind_ok _ _ _ _ _ (while_next_chain l a _ 0%nat st Hl Hfuel)).
  cbn [fst snd].
  pose proof (app_removelast_last a Hne) as Hsplit.
  rewrite last_cons_default in Hsplit.
  assert (List.last l a ∈ a :: l) as Hin.
  { rewrite Hsplit. apply elem_of_app. right. by left. }
  destruct (Hlive _ Hin) as (Hz & nd & Hznd).
  assert (List.last l a ∉ removelast (a :: l)) as Hnotin.
  { rewrite Hsplit in Hnd. apply NoDup_app in Hnd as (_ & Hdisj & _).
    intros Hin'. apply (Hdisj _ Hin'). by left. }
  erewrite bind_ok.
  2:{ apply free_live; [done|]. cbn [heap].
      rewrite lookup_drop_blocks, decide_False by done.
      rewrite Hznd. eauto. }
  cbn [heap trace]. unfold mret, M_ret. f_equal.
  - simpl. lia.
  - f_equal.
    + transitivity
        (drop_blocks (heap st) (removelast (a :: l) ++ [List.last l a])).
      * by rewrite drop_blocks_app.
      * by rewrite <- Hsplit.
    + rewrite (chain_trace_loop _ a Hne), last_cons_default.
      by rewrite <- app_assoc.
Qed.

Lemma chains_at_drop_blocks h qs : ∀ cs heads,
  (∀ q, q ∈ qs → q ∉ concat cs) →
  chains_at h heads cs = true →
  chains_at (drop_blocks h qs) heads cs = true.
Proof.
  induction cs as [|l cs IH]; intros heads Hd Hc; [done|].
  destruct heads as [|p ps]; [by simpl in Hc|].
  cbn [chains_at] in *.
  apply andb_true_iff in Hc as [Hl Hc].
  apply is_chain_inv in Hl as [Hne Hl].
  apply andb_true_iff. split.
  - apply is_chain_intro; [done|]. apply lseg_drop_blocks; [|done].
    intros q Hq Hin. apply (Hd q Hq). simpl. apply elem_of_app. by left.
  - apply IH; [|done].
    intros q Hq Hin. apply (Hd q Hq). simpl. apply elem_of_app. by right.
Qed.

(** The outer loop from index [i] on: the chains are released one after
    the other, each in chain order. *)
Lemma free_clusters_loop base heads : ∀ cs i st,
  heap st !! base = Some (BPtrs heads) → base ≠ NULL →
  chains_at (heap st) (drop (N.to_nat i) heads) cs = true →
  NoDup (concat cs) →
  for_loop (length cs) i
    (λ i, ptr ← load_slot base i; free_chain ptr ;; mret tt) st =
  Ok tt (State (drop_blocks (heap st) (concat cs))
               (trace st ++ clusters_trace base i cs)).
Proof.
  induction cs as [|l cs IH]; intros i st Hbase Hnn Hc Hnd.
  - simpl. rewrite app_nil_r. by destruct st.
  - destruct (drop (N.to_nat i) heads) as [|p ps] eqn:Hdrop; [done|].
    cbn [chains_at] in Hc. apply andb_true_iff in Hc as [Hl Hc].
    assert (heads !! N.to_nat i = Some p) as Hi.
    { rewrite <- (Nat.add_0_r (N.to_nat i)), <- lookup_drop, Hdrop. done. }
    assert (drop (N.to_nat (N.succ i)) heads = ps) as Hdrop'.
    { rewrite N2Nat.inj_succ. rewrite (drop_S _ _ _ Hi) in Hdrop.
      by injection Hdrop. }
    simpl in Hnd. apply NoDup_app in Hnd as (Hndl & Hdisj & Hndcs).
    assert (base ∉ l) as Hbl.
    { intros Hin. apply is_chain_inv in Hl as [_ Hl].
      destruct (lseg_live _ _ _ _ Hl Hin) as (_ & nd & Hnd').
      congruence. }
    cbn [length for_loop].
    rewrite bind_unfold.
    rewrite (bind_ok _ _ _ _ _ (load_slot_ok _ _ _ _ _ Hbase Hnn Hi)).
    rewrite (bind_ok _ _ _ _ _
               (free_chain_ok (State (heap st) (trace st ++ [EvIndex base i]))
                  p l Hl)).
    cbn [heap trace]. unfold mret at 1, M_ret at 1.
    rewrite IH; cbn [heap trace].
    + simpl. rewrite drop_blocks_app. by rewrite <- !app_assoc.
    + rewrite lookup_drop_blocks, decide_False by done. done.
    + done.
    + rewrite Hdrop'. by apply chains_at_drop_blocks.
    + done.
Qed.

Lemma cluster_list_inv st base k cs :
  cluster_list st base k cs = true →
  ∃ heads, heap st !! base = Some (BPtrs heads) ∧ base ≠ NULL ∧
           length cs = N.to_nat k ∧
           chains_at (heap st) heads cs = true ∧ NoDup (concat cs).
Proof.
  unfold cluster_list.
  destruct (heap st !! base) as [[|heads| |]|]; try discriminate.
  intros H. apply andb_true_iff in H as [H Hnd].
  apply andb_true_iff in H as [H Hc].
  apply andb_true_iff in H as [Hb Hlen].
  apply negb_true_iff, ptr_eqb_neq in Hb.
  apply bool_decide_eq_true in Hlen, Hnd.
  exists heads. done.
Qed.

Lemma free_cluster_list_ok st base k cs :
  cluster_list st base k cs = true →
  free_cluster_list k base st =
    Ok tt (State (drop_blocks (heap st) (concat cs))
                 (trace st ++ clusters_trace base 0 cs)).
Proof.
  intros (heads & Hbase & Hnn & Hlen & Hc & Hnd)%cluster_list_inv.
  unfold free_cluster_list, for_upto. rewrite <- Hlen.
  by apply free_clusters_loop with heads.
Qed.

End Clusters.

(** ** Loops: invariants, splitting, totality *)

Section Loops.
Implicit Types (st : state) (p q a base : addr) (body : N → M unit).

(** Invariant rule for the counted loop: [P] holds of every outcome that
    stops the loop early, and of the normal exit, where the invariant
    holds. *)
Lemma for_loop_rule (I : N → state → Prop) (P : outcome unit → Prop) body n :
  ∀ i st,
  (∀ st', I (i + N.of_nat n)%N st' → P (Ok tt st')) →
  (∀ j st0, (i ≤ j < i + N.of_nat n)%N → I j st0 →
     match body j st0 with
     | Ok _ st1 => I (N.succ j) st1
     | o => P o
     end) →
  I i st → P (for_loop n i body st).
Proof.
  induction n as [|n IH]; intros i st HP Hbody HI.
  - apply HP. by rewrite N.add_0_r.
  - cbn [for_loop]. rewrite bind_unfold.
    pose proof (Hbody i st ltac:(lia) HI) as Hstep.
    destruct (body i st) as [[] st1| |]; [|done..].
    apply IH; [| |done].
    + intros st' HI'. apply HP.
      by replace (i + N.of_nat (S n))%N with (N.succ i + N.of_nat n)%N by lia.
    + intros j st0 Hj. apply Hbody. lia.
Qed.

Lemma for_loop_app body n1 n2 i st :
  for_loop (n1 + n2) i body st =
  (for_loop n1 i body ;; for_loop n2 (i + N.of_nat n1)%N body) st.
Proof.
  revert i st. induction n1 as [|n1 IH]; intros i st.
  - simpl. rewrite bind_unfold. unfold mret, M_ret.
    by rewrite N.add_0_r.
  - cbn [Nat.add for_loop]. rewrite !bind_unfold.
    destruct (body i st) as [[] st1| |]; [|done..].
    rewrite IH, bind_unfold.
    by replace (N.succ i + N.of_nat n1)%N with (i + N.of_nat (S n1))%N by lia.
Qed.

(** The [while] loop cannot run forever: each completed iteration releases
    a live block. *)
Lemma while_next_total fuel : ∀ p it st,
  (size (heap st) < fuel)%nat → while_next fuel p it st ≠ Timeout.
Proof.
  induction fuel as [|fuel IH]; intros p it st Hsz; [lia|].
  cbn [while_next]. rewrite bind_unfold.
  destruct (load_next p st) as [nx st1| |] eqn:E1; [|done|].
  2:{ by apply load_next_no_timeout in E1. }
  apply load_next_inv in E1 as (Hp & nd & Hnd & -> & ->).
  destruct (ptr_eqb (next nd) NULL); [done|].
  cbn zeta. rewrite bind_unfold.
  rewrite load_next_ok with (nd := nd) by done.
  rewrite bind_unfold. rewrite free_live by (cbn [heap]; eauto).
  apply IH. cbn [heap].
  rewrite map_size_delete_Some by eauto.
  assert (size (heap st) ≠ 0)%nat by (apply map_size_ne_0_lookup_2 with p; eauto).
  lia.
Qed.

Lemma free_chain_total p st : free_chain p st ≠ Timeout.
Proof.
  unfold free_chain.
  rewrite (bind_ok loop_fuel _ st (S (size (heap st))) st) by done.
  rewrite bind_unfold.
  pose proof (while_next_total (S (size (heap st))) p 0%nat st ltac:(lia)).
  destruct (while_next _ p 0%nat st) as [[z n] st1| |]; [|done..].
  rewrite bind_unfold. cbn [fst snd].
  pose proof (free_no_timeout st1 z).
  destruct (free z st1); done.
Qed.

(** [free_cluster_list] always finishes, on every memory. *)
Lemma free_cluster_list_total k base st :
  free_cluster_list k base st ≠ Timeout.
Proof.
  unfold free_cluster_list, for_upto.
  apply (for_loop_rule (λ _ _, True) (λ o, o ≠ Timeout)); [done| |done].
  intros j st0 _ _. rewrite bind_unfold.
  pose proof (load_slot_no_timeout st0 base j).
  destruct (load_slot base j st0) as [p st1| |]; [|done..].
  rewrite bind_unfold.
  pose proof (free_chain_total p st1).
  destruct (free_chain p st1); done.
Qed.

End Loops.

(** ** Releasing the slots of an array *)

Section SlotLoop.
(** An array at [base], stored in the block [arr], whose slots hold the
    pointers [vals]; [rd] reads one slot. *)
Variables (base : addr) (arr : block) (rd : N → M addr) (vals : list addr).
Hypothesis rd_ok : ∀ st i,
  heap st !! base = Some arr → (N.to_nat i < length vals)%nat →
  rd i st = Ok (slot_of vals i) (State (heap st) (trace st ++ [EvIndex base i])).

Implicit Types (st : state) (order : list N).

Lemma for_loop_release_in n : ∀ i st,
  for_loop n i (λ j, p ← rd j; free p) st = release_in rd (N_seq i n) st.
Proof.
  induction n as [|n IH]; intros i st; [done|].
  cbn [for_loop N_seq]. unfold release_in. cbn [foldr].
  apply bind_ext. intros _ st1. apply IH.
Qed.

Lemma non_null_cons_null ps : non_null (NULL :: ps) = non_null ps.
Proof.
  unfold non_null. apply filter_cons_False. intros H. by apply H.
Qed.

Lemma non_null_cons p ps : p ≠ NULL → non_null (p :: ps) = p :: non_null ps.
Proof. intros Hp. unfold non_null. by apply filter_cons_True. Qed.

Lemma elem_of_non_null p ps : p ∈ non_null ps ↔ p ≠ NULL ∧ p ∈ ps.
Proof. unfold non_null. by rewrite list_elem_of_filter. Qed.

Lemma releasable_step st p ps t :
  p ≠ NULL → is_Some (heap st !! p) →
  releasable (State (delete p (heap st)) t) ps ↔ releasable st (p :: ps).
Proof.
  intros Hp Hlive. unfold releasable. rewrite non_null_cons by done.
  rewrite NoDup_cons. cbn [heap]. split.
  - intros [Hnd Hall]. split_and!; [|done|].
    + intros Hin. destruct (Hall p Hin) as [b Hb].
      by rewrite lookup_delete_eq in Hb.
    + intros q [->|Hq]%elem_of_cons; [done|].
      destruct (Hall q Hq) as [b Hb].
      apply lookup_delete_Some in Hb as [_ Hb]. eauto.
  - intros [[Hnotin Hnd] Hall]. split; [done|].
    intros q Hq. rewrite lookup_delete_ne by (intros ->; done).
    apply Hall. by right.
Qed.

(** Releasing in any order succeeds when the slots are releasable, and
    then leaves the memory without exactly the non-null slots. *)
Lemma release_in_ok order : ∀ st,
  heap st !! base = Some arr →
  Forall (λ i, (N.to_nat i < length vals)%nat) order →
  base ∉ non_null (slot_of vals <$> order) →
  releasable st (slot_of vals <$> order) →
  release_in rd order st =
    Ok tt (State (drop_blocks (heap st) (non_null (slot_of vals <$> order)))
                 (trace st ++ release_trace base vals order)).
Proof.
  induction order as [|i order IH]; intros st Hb Hrange Hbase Hrel.
  - simpl. rewrite app_nil_r. by destruct st.
  - apply Forall_cons in Hrange as [Hi Hrange].
    unfold release_in. cbn [foldr]. fold (release_in rd order).
    rewrite bind_unfold, bind_unfold, (rd_ok st i Hb Hi).
    cbn [fmap list_fmap] in *.
    unfold release_trace. cbn [flat_map]. fold (release_trace base vals order).
    unfold slot_events.
    destruct (ptr_eqb (slot_of vals i) NULL) eqn:E.
    + apply ptr_eqb_eq in E. rewrite E in *.
      rewrite free_null. rewrite non_null_cons_null in *.
      rewrite IH; try done. cbn [heap trace].
      by rewrite <- app_assoc.
    + apply ptr_eqb_neq in E. rewrite non_null_cons in * by done.
      apply not_elem_of_cons in Hbase as [Hne Hbase].
      assert (is_Some (heap st !! slot_of vals i)) as Hlive.
      { destruct Hrel as [_ Hall]. apply Hall.
        rewrite non_null_cons by done. by left. }
      rewrite free_live by done.
      rewrite IH; cbn [heap trace]; try done.
      * rewrite drop_blocks_cons. by rewrite <- !app_assoc.
      * by rewrite lookup_delete_ne.
      * by apply releasable_step.
Qed.

(** Otherwise some [free] is undefined, whatever the order. *)
Lemma release_in_fault order : ∀ st,
  heap st !! base = Some arr →
  Forall (λ i, (N.to_nat i < length vals)%nat) order →
  base ∉ non_null (slot_of vals <$> order) →
  ¬ releasable st (slot_of vals <$> order) →
  ∃ f, release_in rd order st = Fault f.
Proof.
  induction order as [|i order IH]; intros st Hb Hrange Hbase Hrel.
  - exfalso. apply Hrel. split; [constructor|].
    intros p Hp. by apply elem_of_nil in Hp.
  - apply Forall_cons in Hrange as [Hi Hrange].
    unfold release_in. cbn [foldr]. fold (release_in rd order).
    rewrite bind_unfold, bind_unfold, (rd_ok st i Hb Hi).
    cbn [fmap list_fmap] in *.
    destruct (ptr_eqb (slot_of vals i) NULL) eqn:E.
    + apply ptr_eqb_eq in E. rewrite E in *.
      rewrite free_null. rewrite non_null_cons_null in *.
      apply IH; try done.
    + apply ptr_eqb_neq in E. rewrite non_null_cons in Hbase by done.
      apply not_elem_of_cons in Hbase as [Hne Hbase].
      destruct (heap st !! slot_of vals i) as [b|] eqn:Hlive.
      * rewrite free_live by (cbn [heap]; eauto).
        apply IH; cbn [heap]; try done.
        -- by rewrite lookup_delete_ne.
        -- intros Hr. apply Hrel.
           eapply releasable_step; [done| |exact Hr]. eauto.
      * destruct (free_dead (State (heap st) (trace st ++ [EvIndex base i]))
                    (slot_of vals i) E Hlive) as [f Hf].
        rewrite Hf. eauto.
Qed.

Lemma releasable_perm st ps qs :
  ps ≡ₚ qs → releasable st ps → releasable st qs.
Proof.
  intros Hp [Hnd Hall]. unfold releasable, non_null in *. split.
  - by rewrite <- Hp.
  - intros p Hin. apply Hall. by rewrite Hp.
Qed.

Lemma releases_of_release_trace order :
  releases_of (release_trace base vals order) =
  non_null (slot_of vals <$> order).
Proof.
  induction order as [|i order IH]; [done|].
  unfold release_trace. cbn [flat_map]. fold (release_trace base vals order).
  rewrite releases_of_app, IH. cbn [fmap list_fmap].
  unfold slot_events. destruct (ptr_eqb (slot_of vals i) NULL) eqn:E.
  - apply ptr_eqb_eq in E. rewrite E. by rewrite non_null_cons_null.
  - apply ptr_eqb_neq in E. by rewrite non_null_cons.
Qed.

Lemma indices_of_release_trace order :
  indices_of (release_trace base vals order) = order.
Proof.
  induction order as [|i order IH]; [done|].
  unfold release_trace. cbn [flat_map]. fold (release_trace base vals order).
  rewrite indices_of_app, IH.
  unfold slot_events. by destruct (ptr_eqb (slot_of vals i) NULL).
Qed.

(** Releasing the slots in two orders that are permutations of each other
    has the same effect. *)
Lemma release_in_perm order1 order2 st :
  heap st !! base = Some arr →
  Forall (λ i, (N.to_nat i < length vals)%nat) order1 →
  base ∉ non_null (slot_of vals <$> order1) →
  order1 ≡ₚ order2 →
  same_effect (release_in rd order1 st) (release_in rd order2 st).
Proof.
  intros Hb Hrange Hbase Hperm.
  assert (Forall (λ i, (N.to_nat i < length vals)%nat) order2) as Hrange2
    by (by rewrite <- Hperm).
  assert (non_null (slot_of vals <$> order1) ≡ₚ
          non_null (slot_of vals <$> order2)) as Hps
    by (unfold non_null; by rewrite Hperm).
  assert (base ∉ non_null (slot_of vals <$> order2)) as Hbase2
    by (by rewrite <- Hps).
  destruct (decide (NoDup (non_null (slot_of vals <$> order1)) ∧
                    Forall (λ p, is_Some (heap st !! p))
                      (non_null (slot_of vals <$> order1)))) as [Hr|Hr].
  - assert (releasable st (slot_of vals <$> order1)) as Hr1.
    { destruct Hr as [Hnd Hall]. split; [done|].
      by apply Forall_forall. }
    assert (releasable st (slot_of vals <$> order2)) as Hr2.
    { eapply releasable_perm; [|exact Hr1]. by rewrite Hperm. }
    rewrite (release_in_ok order1), (release_in_ok order2) by done.
    cbn [same_effect heap trace]. split.
    + by apply drop_blocks_perm.
    + rewrite !releases_of_app, !releases_of_release_trace. by rewrite Hps.
  - assert (¬ releasable st (slot_of vals <$> order1)) as Hr1.
    { intros [Hnd Hall]. apply Hr. split; [done|]. by apply Forall_forall. }
    assert (¬ releasable st (slot_of vals <$> order2)) as Hr2.
    { intros Hr2. apply Hr1. eapply releasable_perm; [|exact Hr2].
      by rewrite Hperm. }
    destruct (release_in_fault order1 st) as [f1 ->]; try done.
    destruct (release_in_fault order2 st) as [f2 ->]; done.
Qed.

End SlotLoop.

(** ** The three array loops *)

Section Arrays.
Implicit Types (st : state) (p q base : addr) (h : gmap Z block)
  (slots vals : list addr) (ps : list element).

Lemma N_seq_range n : ∀ i j,
  j ∈ N_seq i n → (i ≤ j < i + N.of_nat n)%N.
Proof.
  induction n as [|n IH]; intros i j Hin.
  - by apply elem_of_nil in Hin.
  - cbn [N_seq] in Hin. apply elem_of_cons in Hin as [->|Hin]; [lia|].
    apply IH in Hin. lia.
Qed.

Lemma N_seq_in_range vals i n :
  (N.to_nat i + n ≤ length vals)%nat →
  Forall (λ j, (N.to_nat j < length vals)%nat) (N_seq i n).
Proof.
  intros Hle. apply Forall_forall. intros j Hj%N_seq_range. lia.
Qed.

(** Reading the indices in increasing order reads the array from left to
    right. *)
Lemma slot_of_N_seq vals n : ∀ i,
  (N.to_nat i + n ≤ length vals)%nat →
  slot_of vals <$> N_seq i n = take n (drop (N.to_nat i) vals).
Proof.
  induction n as [|n IH]; intros i Hle; [done|].
  cbn [N_seq fmap list_fmap].
  assert (N.to_nat i < length vals)%nat as Hi by lia.
  destruct (lookup_lt_is_Some_2 _ _ Hi) as [p Hp].
  rewrite (drop_S _ _ _ Hp). cbn [take].
  unfold slot_of at 1. rewrite (list_lookup_total_correct _ _ _ Hp).
  f_equal. fold (fmap (M:=list) (slot_of vals)).
  rewrite IH by lia. by rewrite N2Nat.inj_succ.
Qed.

Lemma slot_of_N_seq_0 vals n :
  (n ≤ length vals)%nat → slot_of vals <$> N_seq 0 n = take n vals.
Proof. intros Hle. by rewrite slot_of_N_seq by (simpl; lia). Qed.

Lemma load_slot_rd_ok base slots :
  base ≠ NULL →
  ∀ st i, heap st !! base = Some (BPtrs slots) →
    (N.to_nat i < length slots)%nat →
    load_slot base i st =
      Ok (slot_of slots i) (State (heap st) (trace st ++ [EvIndex base i])).
Proof.
  intros Hnn st i Hb Hi. apply load_slot_ok with slots; [done..|].
  by apply list_lookup_lookup_total_lt.
Qed.

Lemma load_values_rd_ok base ps :
  base ≠ NULL →
  ∀ st i, heap st !! base = Some (BPoints ps) →
    (N.to_nat i < length (values <$> ps))%nat →
    load_values base i st =
      Ok (slot_of (values <$> ps) i)
         (State (heap st) (trace st ++ [EvIndex base i])).
Proof.
  intros Hnn st i Hb Hi. rewrite length_fmap in Hi.
  destruct (lookup_lt_is_Some_2 _ _ Hi) as [e He].
  rewrite (load_values_ok _ _ _ _ _ Hb Hnn He).
  unfold slot_of. erewrite list_lookup_total_correct; [done|].
  by rewrite list_lookup_fmap, He.
Qed.

Lemma owns_rows_inv h slots :
  owns_rows h slots = true →
  NoDup (non_null slots) ∧
  ∀ p, p ∈ non_null slots → h !! p = Some BData.
Proof.
  unfold owns_rows. intros [Hnd Hall]%andb_true_iff.
  apply bool_decide_eq_true in Hnd. split; [done|].
  intros p [Hp Hin]%elem_of_non_null.
  rewrite forallb_forall in Hall.
  apply list_elem_of_In, Hall in Hin.
  apply orb_true_iff in Hin as [Hn%ptr_eqb_eq|Hd]; [done|].
  unfold is_data in Hd.
  by destruct (h !! p) as [[]|].
Qed.

Lemma owns_values_inv h vs :
  owns_values h vs = true →
  NoDup vs ∧ non_null vs = vs ∧ ∀ p, p ∈ vs → h !! p = Some BData.
Proof.
  unfold owns_values. intros [Hnd Hall]%andb_true_iff.
  apply bool_decide_eq_true in Hnd.
  rewrite forallb_forall in Hall.
  assert (∀ p, p ∈ vs → p ≠ NULL ∧ h !! p = Some BData) as Hprop.
  { intros p Hin%list_elem_of_In%Hall.
    apply andb_true_iff in Hin as [Hn%negb_true_iff%ptr_eqb_neq Hd].
    split; [done|]. unfold is_data in Hd. by destruct (h !! p) as [[]|]. }
  split_and!; [done| |intros p Hp; by destruct (Hprop p Hp)].
  unfold non_null. clear Hnd Hall.
  induction vs as [|v vs IH]; [done|].
  rewrite filter_cons_True by (apply Hprop; by left).
  f_equal. apply IH. intros p Hp. apply Hprop. by right.
Qed.

(** The loop of [free_category_indices] and [free_distances] on an array
    whose first [c] slots can all be released. *)
Lemma free_slots_ok st base c slots :
  heap st !! base = Some (BPtrs slots) → base ≠ NULL →
  (N.to_nat c ≤ length slots)%nat →
  base ∉ non_null (take (N.to_nat c) slots) →
  releasable st (take (N.to_nat c) slots) →
  for_upto c (λ i, p ← load_slot base i; free p) st =
    Ok tt (State (drop_blocks (heap st) (non_null (take (N.to_nat c) slots)))
                 (trace st ++ release_trace base slots (N_seq 0 (N.to_nat c)))).
Proof.
  intros Hb Hnn Hle Hbase Hrel. unfold for_upto.
  rewrite for_loop_release_in.
  rewrite (release_in_ok base (BPtrs slots) _ slots
             (load_slot_rd_ok base slots Hnn));
    rewrite ?slot_of_N_seq_0 by done; try done.
  by apply N_seq_in_range.
Qed.

(** The loop of [free_points] on a store whose first [i] points hold
    releasable feature vectors. *)
Lemma free_points_ok st base n i ps :
  heap st !! base = Some (BPoints ps) → base ≠ NULL →
  (N.to_nat i ≤ length ps)%nat →
  base ∉ non_null (values <$> take (N.to_nat i) ps) →
  releasable st (values <$> take (N.to_nat i) ps) →
  free_points n base i st =
    Ok tt (State (drop_blocks (heap st)
                    (non_null (values <$> take (N.to_nat i) ps)))
                 (trace st ++
                  release_trace base (values <$> ps) (N_seq 0 (N.to_nat i)))).
Proof.
  intros Hb Hnn Hle Hbase Hrel. unfold free_points, for_upto.
  rewrite for_loop_release_in.
  assert (N.to_nat i ≤ length (values <$> ps))%nat as Hle'
    by (by rewrite length_fmap).
  rewrite (release_in_ok base (BPoints ps) _ (values <$> ps)
             (load_values_rd_ok base ps Hnn));
    rewrite ?slot_of_N_seq_0, <- ?fmap_take by done; try done.
  by apply N_seq_in_range.
Qed.

Lemma events_since_app st t h :
  events_since st (State h (trace st ++ t)) = t.
Proof. unfold events_since. cbn [trace]. by rewrite drop_app_length. Qed.

Lemma drop_blocks_insert h base b qs :
  base ∉ qs →
  drop_blocks (<[base:=b]> h) qs = <[base:=b]> (drop_blocks h qs).
Proof.
  intros Hq. apply map_eq. intros q.
  rewrite lookup_drop_blocks, !lookup_insert, lookup_drop_blocks.
  repeat case_decide; subst; done.
Qed.

End Arrays.

(** ** Traces of the cluster traversal *)

Section Traces.
Implicit Types (l : list addr) (cs : list (list addr)) (t : list event).

Lemma releases_of_chain_trace l : releases_of (chain_trace l) = l.
Proof.
  induction l as [|a l IH]; [done|].
  destruct l as [|b l]; [done|].
  change (chain_trace (a :: b :: l))
    with ([EvNext a; EvNext a; EvRelease a] ++ chain_trace (b :: l)).
  by rewrite releases_of_app, IH.
Qed.

Lemma releases_of_clusters_trace base cs : ∀ i,
  releases_of (clusters_trace base i cs) = concat cs.
Proof.
  induction cs as [|l cs IH]; intros i; [done|].
  cbn [clusters_trace concat].
  change (EvIndex base i :: chain_trace l ++ clusters_trace base (N.succ i) cs)
    with ([EvIndex base i] ++ chain_trace l ++ clusters_trace base (N.succ i) cs).
  by rewrite !releases_of_app, releases_of_chain_trace, IH.
Qed.

Lemma length_concat_sum cs :
  length (concat cs) = sum_list (length <$> cs).
Proof.
  induction cs as [|l cs IH]; [done|].
  cbn [concat fmap list_fmap sum_list sum_list_with].
  by rewrite length_app, IH.
Qed.

(** Only nodes of the chain are read while the chain is traversed. *)
Lemma read_in_chain_trace l a : EvNext a ∈ chain_trace l → a ∈ l.
Proof.
  induction l as [|b l IH]; [by intros ?%elem_of_nil|].
  destruct l as [|c l].
  - intros Hin. simpl in Hin. set_unfold. intuition congruence.
  - change (chain_trace (b :: c :: l))
      with ([EvNext b; EvNext b; EvRelease b] ++ chain_trace (c :: l)).
    intros [Hin|Hin]%elem_of_app.
    + set_unfold. intuition congruence.
    + right. by apply IH.
Qed.

Lemma read_in_clusters_trace base cs a : ∀ i,
  EvNext a ∈ clusters_trace base i cs → a ∈ concat cs.
Proof.
  induction cs as [|l cs IH]; intros i; [by intros ?%elem_of_nil|].
  cbn [clusters_trace concat].
  intros [Hin|[Hin|Hin]%elem_of_app]%elem_of_cons; [done| |].
  - apply elem_of_app. left. by apply read_in_chain_trace.
  - apply elem_of_app. right. by apply IH with (N.succ i).
Qed.

End Traces.

(** ** The loop seen from inside *)

Section LoopShape.
Implicit Types (st : state) (p a : addr) (h : gmap Z block) (l : list addr).

(** The last node of a chain is live and has no successor. *)
Lemma lseg_last h l : ∀ a,
  lseg h a (a :: l) = true →
  List.last l a ≠ NULL ∧
  ∃ nd, h !! List.last l a = Some (BNode nd) ∧ next nd = NULL.
Proof.
  induction l as [|b l IH]; intros a Hl.
  - apply lseg_cons_inv in Hl as (_ & Ha & nd & Hnd & Hl).
    apply lseg_nil_inv in Hl. simpl. eauto.
  - apply lseg_cons_inv in Hl as (_ & Ha & nd & Hnd & Hl).
    pose proof Hl as (Hnx & _)%lseg_cons_inv. rewrite Hnx in Hl.
    rewrite last_cons_default. by apply IH.
Qed.

(** With less fuel than the chain has nodes, the loop has not reached its
    exit. *)
Lemma while_next_short l : ∀ a fuel it st,
  lseg (heap st) a (a :: l) = true →
  (fuel ≤ length l)%nat →
  while_next fuel a it st = Timeout.
Proof.
  induction l as [|b l IH]; intros a fuel it st Hl Hfuel.
  - cbn [length] in Hfuel. by replace fuel with 0%nat by lia.
  - destruct fuel as [|fuel]; [done|].
    pose proof (lseg_NoDup _ _ _ Hl) as [Hnotin _]%NoDup_cons.
    apply lseg_cons_inv in Hl as (_ & Ha & nd & Hnd & Hl).
    pose proof Hl as (Hnx & Hb & _)%lseg_cons_inv.
    rewrite (while_next_step fuel a nd it st Hnd Ha) by (by rewrite Hnx).
    rewrite Hnx in *. apply IH.
    + cbn [heap]. by apply lseg_delete.
    + cbn [length] in Hfuel. lia.
Qed.

Lemma releases_of_loop_trace l : releases_of (loop_trace l) = removelast l.
Proof.
  induction l as [|a l IH]; [done|].
  destruct l as [|b l]; [done|].
  change (loop_trace (a :: b :: l))
    with ([EvNext a; EvNext a; EvRelease a] ++ loop_trace (b :: l)).
  rewrite releases_of_app, IH. reflexivity.
Qed.

End LoopShape.

(** ** Facts about the traces of the array loops *)

Section ArrayTraces.
Implicit Types (st : state) (base : addr) (vals : list addr) (order : list N).

Lemma index_in_release_trace base b vals order j :
  EvIndex b j ∈ release_trace base vals order → j ∈ order.
Proof.
  induction order as [|i order IH]; [by intros ?%elem_of_nil|].
  unfold release_trace. cbn [flat_map]. fold (release_trace base vals order).
  intros [Hin|Hin]%elem_of_app.
  - apply elem_of_cons. left. unfold slot_events in Hin.
    destruct (ptr_eqb (slot_of vals i) NULL); set_unfold; intuition congruence.
  - apply elem_of_cons. right. by apply IH.
Qed.

(** The events of releasing slots below [n] depend on the first [n] slots
    only. *)
Lemma release_trace_take base vals order n :
  Forall (λ j, (N.to_nat j < n)%nat) order →
  release_trace base (take n vals) order = release_trace base vals order.
Proof.
  induction order as [|i order IH]; intros Hall; [done|].
  apply Forall_cons in Hall as [Hi Hall].
  unfold release_trace. cbn [flat_map].
  fold (release_trace base vals order).
  fold (release_trace base (take n vals) order).
  rewrite IH by done. f_equal.
  unfold slot_of. by rewrite lookup_total_take_lt.
Qed.

Lemma N_seq_below n : Forall (λ j, (N.to_nat j < n)%nat) (N_seq 0 n).
Proof. apply Forall_forall. intros j Hj%N_seq_range. lia. Qed.

Lemma non_null_no_null vals : NULL ∉ non_null vals.
Proof. intros [Hn _]%elem_of_non_null. done. Qed.

Lemma releasable_owned_rows st slots :
  owns_rows (heap st) slots = true → releasable st slots.
Proof.
  intros [Hnd Hall]%owns_rows_inv. split; [done|].
  intros p Hp. rewrite (Hall p Hp). eauto.
Qed.

Lemma releasable_owned_values st vs :
  owns_values (heap st) vs = true → releasable st vs.
Proof.
  intros (Hnd & Hnn & Hall)%owns_values_inv. unfold releasable.
  rewrite Hnn. split; [done|].
  intros p Hp. rewrite (Hall p Hp). eauto.
Qed.

End ArrayTraces.

(** ** Null heads and null dereferences *)

Section NullHeads.
Implicit Types (st : state) (p q a base : addr) (h : gmap Z block).

Lemma load_next_null st : load_next NULL st = Fault NullDeref.
Proof.
  unfold load_next, bad_read.
  by destruct (heap st !! NULL) as [[]|].
Qed.

(** The traversal of a cluster whose head is null dereferences null at
    once. *)
Lemma free_chain_null st : free_chain NULL st = Fault NullDeref.
Proof.
  unfold free_chain.
  rewrite (bind_ok loop_fuel _ st (S (size (heap st))) st) by done.
  apply bind_fault. cbn [while_next].
  apply bind_fault. apply load_next_null.
Qed.

(** What a successful run of the loop leaves: the exit node is a live node,
    and every block that is not a [struct node] is as it was. *)
Lemma while_next_inv fuel : ∀ p it st z n st',
  while_next fuel p it st = Ok (z, n) st' →
  (∃ nd, heap st' !! z = Some (BNode nd)) ∧ z ≠ NULL ∧
  ∀ q b, heap st !! q = Some b → (∀ nd, b ≠ BNode nd) →
         heap st' !! q = Some b.
Proof.
  induction fuel as [|fuel IH]; intros p it st z n st' Hrun; [done|].
  cbn [while_next] in Hrun. rewrite bind_unfold in Hrun.
  destruct (load_next p st) as [nx st1| |] eqn:E1; [|done..].
  apply load_next_inv in E1 as (Hp & nd & Hnd & -> & ->).
  destruct (ptr_eqb (next nd) NULL) eqn:Enx.
  - injection Hrun as <- <- <-. cbn [heap]. eauto.
  - cbn zeta in Hrun. rewrite bind_unfold in Hrun.
    rewrite load_next_ok with (nd := nd) in Hrun by done.
    rewrite bind_unfold in Hrun.
    rewrite free_live in Hrun by (cbn [heap]; eauto).
    apply IH in Hrun as (Hz & Hzn & Hkeep). cbn [heap] in Hkeep.
    split_and!; [done..|].
    intros q b Hq Hb. apply Hkeep; [|done].
    rewrite lookup_delete_ne; [done|]. intros <-.
    rewrite Hnd in Hq. injection Hq as <-. by apply (Hb nd).
Qed.

Lemma free_chain_inv p st n st' :
  free_chain p st = Ok n st' →
  ∀ q b, heap st !! q = Some b → (∀ nd, b ≠ BNode nd) →
         heap st' !! q = Some b.
Proof.
  unfold free_chain.
  rewrite (bind_ok loop_fuel _ st (S (size (heap st))) st) by done.
  rewrite bind_unfold.
  destruct (while_next _ p 0%nat st) as [[z m] st1| |] eqn:E; [|done..].
  apply while_next_inv in E as ((nd & Hz) & Hzn & Hkeep).
  rewrite bind_unfold. cbn [fst snd].
  rewrite free_live by (rewrite ?Hz; eauto).
  intros [= <- <-] q b Hq Hb. cbn [heap].
  rewrite lookup_delete_ne; [by apply Hkeep|].
  intros <-. rewrite (Hkeep _ _ Hq Hb) in Hz. injection Hz as ->.
  by apply (Hb nd).
Qed.

(** From a non-null pointer on, the loop never dereferences null: it only
    advances to a successor that it has just found present. *)
Lemma while_next_no_null_fault fuel : ∀ p it st,
  p ≠ NULL → while_next fuel p it st ≠ Fault NullDeref.
Proof.
  induction fuel as [|fuel IH]; intros p it st Hp; [done|].
  cbn [while_next]. rewrite bind_unfold.
  destruct (load_next p st) as [nx st1|f|] eqn:E1; [| |done].
  2:{ intros [= ->]. by apply (load_next_no_null_fault st p). }
  apply load_next_inv in E1 as (_ & nd & Hnd & -> & ->).
  destruct (ptr_eqb (next nd) NULL) eqn:Enx; [done|].
  apply ptr_eqb_neq in Enx.
  cbn zeta. rewrite bind_unfold.
  rewrite load_next_ok with (nd := nd) by done.
  rewrite bind_unfold. rewrite free_live by (cbn [heap]; eauto).
  by apply IH.
Qed.

Lemma free_chain_no_null_fault p st :
  p ≠ NULL → free_chain p st ≠ Fault NullDeref.
Proof.
  intros Hp. unfold free_chain.
  rewrite (bind_ok loop_fuel _ st (S (size (heap st))) st) by done.
  rewrite bind_unfold.
  pose proof (while_next_no_null_fault (S (size (heap st))) p 0%nat st Hp).
  destruct (while_next _ p 0%nat st) as [[z m] st1|f|]; [|congruence|done].
  rewrite bind_unfold. cbn [fst snd].
  pose proof (free_no_null_fault st1 z).
  destruct (free z st1); [done|congruence|done].
Qed.

(** Every node of every chain of a cluster list is a live [struct node]. *)
Lemma chains_at_live h heads cs a :
  chains_at h heads cs = true → a ∈ concat cs →
  a ≠ NULL ∧ ∃ nd, h !! a = Some (BNode nd).
Proof.
  revert heads. induction cs as [|l cs IH]; intros heads Hc Hin.
  - by apply elem_of_nil in Hin.
  - destruct heads as [|p ps]; [by simpl in Hc|].
    cbn [chains_at] in Hc. apply andb_true_iff in Hc as [Hl Hc].
    apply is_chain_inv in Hl as [_ Hl].
    cbn [concat] in Hin. apply elem_of_app in Hin as [Hin|Hin].
    + by apply lseg_live with p l.
    + by apply IH with ps.
Qed.

(** A successful read of a slot. *)
Lemma load_slot_inv st a i p st' :
  load_slot a i st = Ok p st' →
  ∃ slots, heap st !! a = Some (BPtrs slots) ∧
           slots !! N.to_nat i = Some p ∧
           st' = State (heap st) (trace st ++ [EvIndex a i]).
Proof.
  unfold load_slot, bad_read.
  destruct (heap st !! a) as [[nd|sl| |]|] eqn:Ha;
    destruct (ptr_eqb a NULL) eqn:E; try discriminate;
    try (destruct (was_released a st); discriminate).
  destruct (sl !! N.to_nat i) eqn:Hi; [|discriminate].
  intros [= <- <-]. eauto.
Qed.

Lemma load_slot_no_null_fault st a i :
  a ≠ NULL → load_slot a i st ≠ Fault NullDeref.
Proof.
  intros Hn%ptr_eqb_neq. unfold load_slot, bad_read. rewrite Hn.
  destruct (heap st !! a) as [[nd|sl| |]|]; try done;
    try (destruct (was_released a st); done).
  by destruct (sl !! N.to_nat i).
Qed.

End NullHeads.

(** ** No read after release *)

Section ReadAfterRelease.
Implicit Types (l : list addr) (cs : list (list addr)) (t : list event).

Lemma nrr_nil : never_reads_released [].
Proof. intros [|e t1] p t2 H; discriminate. Qed.

Lemma nrr_cons e t :
  (∀ p, e = EvRelease p → EvNext p ∉ t) →
  never_reads_released t → never_reads_released (e :: t).
Proof.
  intros He Ht [|e' t1] p t2 H.
  - injection H as -> ->. by apply He.
  - injection H as -> ->. by apply (Ht t1 p t2).
Qed.

Lemma nrr_chain_trace l : ∀ t,
  NoDup l → (∀ a, a ∈ l → EvNext a ∉ t) →
  never_reads_released t → never_reads_released (chain_trace l ++ t).
Proof.
  induction l as [|a l IH]; intros t Hnd Hfresh Ht; [done|].
  apply NoDup_cons in Hnd as [Hnotin Hnd].
  assert (EvNext a ∉ t) as Hat by (apply Hfresh; by left).
  destruct l as [|b l].
  - cbn [chain_trace app].
    apply nrr_cons; [done|]. apply nrr_cons; [|done].
    by intros p [= <-].
  - change (chain_trace (a :: b :: l) ++ t)
      with (EvNext a :: EvNext a :: EvRelease a :: (chain_trace (b :: l) ++ t)).
    apply nrr_cons; [done|]. apply nrr_cons; [done|]. apply nrr_cons.
    + intros p [= <-]. intros [Hin|Hin]%elem_of_app; [|done].
      by apply read_in_chain_trace in Hin.
    + apply IH; [done| |done]. intros c Hc. apply Hfresh. by right.
Qed.

Lemma nrr_clusters_trace base cs : ∀ i,
  NoDup (concat cs) → never_reads_released (clusters_trace base i cs).
Proof.
  induction cs as [|l cs IH]; intros i Hnd; [apply nrr_nil|].
  cbn [concat] in Hnd. apply NoDup_app in Hnd as (Hl & Hdisj & Hcs).
  cbn [clusters_trace]. apply nrr_cons; [done|].
  apply nrr_chain_trace; [done| |by apply IH].
  intros a Ha Hin%read_in_clusters_trace. by apply (Hdisj a).
Qed.

(** Every node of a chain is released right after a read of its [next]
    field. *)
Lemma release_in_chain_trace l a :
  a ∈ l → ∃ t1 t2, chain_trace l = t1 ++ EvNext a :: EvRelease a :: t2.
Proof.
  induction l as [|b l IH]; [by intros ?%elem_of_nil|].
  intros [->|Hin]%elem_of_cons.
  - destruct l as [|c l].
    + by exists [], [].
    + by exists [EvNext b], (chain_trace (c :: l)).
  - destruct l as [|c l]; [by apply elem_of_nil in Hin|].
    destruct (IH Hin) as (t1 & t2 & Heq).
    exists ([EvNext b; EvNext b; EvRelease b] ++ t1), t2.
    change (chain_trace (b :: c :: l))
      with ([EvNext b; EvNext b; EvRelease b] ++ chain_trace (c :: l)).
    by rewrite Heq, <- app_assoc.
Qed.

Lemma release_in_clusters_trace base cs a : ∀ i,
  a ∈ concat cs →
  ∃ t1 t2, clusters_trace base i cs = t1 ++ EvNext a :: EvRelease a :: t2.
Proof.
  induction cs as [|l cs IH]; intros i; [by intros ?%elem_of_nil|].
  cbn [concat clusters_trace]. intros [Hin|Hin]%elem_of_app.
  - destruct (release_in_chain_trace l a Hin) as (t1 & t2 & Heq).
    exists (EvIndex base i :: t1), (t2 ++ clusters_trace base (N.succ i) cs).
    rewrite Heq. cbn [app]. by rewrite <- app_assoc.
  - destruct (IH (N.succ i) Hin) as (t1 & t2 & Heq).
    exists (EvIndex base i :: chain_trace l ++ t1), t2.
    rewrite Heq. cbn [app]. by rewrite <- app_assoc.
Qed.

End ReadAfterRelease.

(** ** What [free_points] can release *)

Section PointsFrame.
Implicit Types (st : state) (p q a base : addr) (t : list event).

Lemma elem_of_releases_of t p : p ∈ releases_of t ↔ EvRelease p ∈ t.
Proof.
  unfold releases_of. rewrite list_elem_of_omap. split.
  - intros (e & He & Hp). destruct e; try discriminate.
    by injection Hp as ->.
  - intros Hin. by exists (EvRelease p).
Qed.

(** A successful read of [POINTS[j].values]. *)
Lemma load_values_inv st a j p st' :
  load_values a j st = Ok p st' →
  ∃ ps e, heap st !! a = Some (BPoints ps) ∧
          ps !! N.to_nat j = Some e ∧ p = values e ∧
          st' = State (heap st) (trace st ++ [EvIndex a j]).
Proof.
  unfold load_values, bad_read.
  destruct (heap st !! a) as [[nd|sl|ps|]|] eqn:Ha;
    destruct (ptr_eqb a NULL) eqn:E; try discriminate;
    try (destruct (was_released a st); discriminate).
  destruct (ps !! N.to_nat j) as [e|] eqn:Hj; [|discriminate].
  intros [= <- <-]. by exists ps, e.
Qed.

Lemma free_points_inv st base n i st' :
  free_points n base i st = Ok tt st' → points_inv st base i st'.
Proof.
  unfold free_points, for_upto.
  enough (∀ s, for_loop (N.to_nat i) 0
                 (λ j, p ← load_values base j; free p) st = Ok tt s →
               points_inv st base i s) as H by apply H.
  apply (for_loop_rule (points_inv st base)
           (λ o, ∀ s, o = Ok tt s → points_inv st base i s)).
  - intros s Hs s' [= <-]. by rewrite N.add_0_l, N2Nat.id in Hs.
  - intros j s Hj (t & Ht & Hh & Hrel). rewrite bind_unfold.
    destruct (load_values base j s) as [p s1| |] eqn:E1; [|done..].
    apply load_values_inv in E1 as (ps & e & Hps & He & -> & ->).
    assert (heap st !! base = Some (BPoints ps)) as Hps0.
    { rewrite Hh, lookup_drop_blocks in Hps. by case_decide. }
    destruct (free (values e) _) as [[] s2| |] eqn:E2; [|done..].
    apply free_inv in E2 as [[Hnull ->]|(Hnn & Hlive & ->)]; cbn [heap trace].
    + exists (t ++ [EvIndex base j]). rewrite releases_of_app, app_nil_r.
      cbn [heap trace]. split_and!; [by rewrite Ht, app_assoc|done|].
      intros p Hp. destruct (Hrel p Hp) as (ps' & k & e' & ? & ? & ? & ?).
      exists ps', k, e'. split_and!; [done|lia|done..].
    + exists (t ++ [EvIndex base j; EvRelease (values e)]).
      rewrite releases_of_app. cbn [heap trace].
      change (releases_of [EvIndex base j; EvRelease (values e)])
        with [values e].
      split_and!.
      * rewrite Ht, <- !app_assoc. done.
      * by rewrite drop_blocks_app, Hh.
      * intros p [Hp|Hp]%elem_of_app.
        -- destruct (Hrel p Hp) as (ps' & k & e' & ? & ? & ? & ?).
           exists ps', k, e'. split_and!; [done|lia|done..].
        -- apply list_elem_of_singleton in Hp as ->.
           exists ps, j, e. split_and!; [done|lia|done..].
  - exists []. rewrite app_nil_r. split_and!; [done..|].
    by intros p ?%elem_of_nil.
Qed.

End PointsFrame.

(** ** What a successful traversal tells about the memory *)

Section ChainNecessity.
Implicit Types (st : state) (p q a base : addr) (h : gmap Z block)
  (l : list addr) (cs : list (list addr)).

Lemma drop_blocks_subseteq h ps : drop_blocks h ps ⊆ h.
Proof.
  apply map_subseteq_spec. intros q b.
  rewrite lookup_drop_blocks. by case_decide.
Qed.

(** A chain of a part of the memory is a chain of the whole memory. *)
Lemma lseg_mono h h' p l :
  h ⊆ h' → lseg h p l = true → lseg h' p l = true.
Proof.
  intros Hsub. revert p. induction l as [|a l IH]; intros p Hl; [done|].
  apply lseg_cons_inv in Hl as (-> & Ha & nd & Hnd & Hl).
  apply lseg_cons_intro with nd; [done| |by apply IH].
  by apply (lookup_weaken h h').
Qed.

Lemma chains_at_mono h h' cs : ∀ heads,
  h ⊆ h' → chains_at h heads cs = true → chains_at h' heads cs = true.
Proof.
  induction cs as [|l cs IH]; intros heads Hsub Hc; [done|].
  destruct heads as [|p ps]; [by simpl in Hc|].
  cbn [chains_at] in *. apply andb_true_iff in Hc as [Hl Hc].
  apply is_chain_inv in Hl as [Hne Hl].
  apply andb_true_iff. split.
  - apply is_chain_intro; [done|]. by apply lseg_mono with h.
  - by apply IH.
Qed.

(** If the loop returns, the pointer it started from heads a
    null-terminated chain of live nodes. *)
Lemma while_next_ok_chain fuel : ∀ p it st z n st',
  while_next fuel p it st = Ok (z, n) st' →
  ∃ l, lseg (heap st) p (p :: l) = true.
Proof.
  induction fuel as [|fuel IH]; intros p it st z n st' Hrun; [done|].
  cbn [while_next] in Hrun. rewrite bind_unfold in Hrun.
  destruct (load_next p st) as [nx st1| |] eqn:E1; [|done..].
  apply load_next_inv in E1 as (Hp & nd & Hnd & -> & ->).
  destruct (ptr_eqb (next nd) NULL) eqn:Enx.
  - apply ptr_eqb_eq in Enx. exists [].
    apply lseg_cons_intro with nd; [done..|]. by apply ptr_eqb_eq.
  - cbn zeta in Hrun. rewrite bind_unfold in Hrun.
    rewrite load_next_ok with (nd := nd) in Hrun by done.
    rewrite bind_unfold in Hrun.
    rewrite free_live in Hrun by (cbn [heap]; eauto).
    apply IH in Hrun as [l Hl]. cbn [heap] in Hl.
    exists (next nd :: l).
    apply lseg_cons_intro with nd; [done..|].
    apply lseg_mono with (delete p (heap st)); [apply delete_subseteq|done].
Qed.

Lemma free_chain_ok_chain p st n st' :
  free_chain p st = Ok n st' → ∃ l, is_chain (heap st) p l = true.
Proof.
  unfold free_chain.
  rewrite (bind_ok loop_fuel _ st (S (size (heap st))) st) by done.
  rewrite bind_unfold.
  destruct (while_next _ p 0%nat st) as [[z m] st1| |] eqn:E; [|done..].
  intros _. apply while_next_ok_chain in E as [l Hl].
  exists (p :: l). by apply is_chain_intro.
Qed.

(** If the outer loop returns, the heads it read start chains that share
    no node. *)
Lemma free_clusters_loop_inv base heads n : ∀ i st st',
  heap st !! base = Some (BPtrs heads) →
  for_loop n i (λ i, ptr ← load_slot base i; free_chain ptr ;; mret tt) st
    = Ok tt st' →
  ∃ cs, length cs = n ∧
        chains_at (heap st) (drop (N.to_nat i) heads) cs = true ∧
        NoDup (concat cs).
Proof.
  induction n as [|n IH]; intros i st st' Hb Hrun.
  - exists []. split_and!; [done..|constructor].
  - cbn [for_loop] in Hrun. rewrite !bind_unfold in Hrun.
    destruct (load_slot base i st) as [p s1| |] eqn:E1; [|done..].
    apply load_slot_inv in E1 as (slots & Hs & Hp & ->).
    rewrite Hb in Hs. injection Hs as <-.
    cbn beta iota in Hrun. rewrite bind_unfold in Hrun.
    destruct (free_chain p _) as [m s2| |] eqn:E2; [|done..].
    pose proof (free_chain_ok_chain _ _ _ _ E2) as [l Hl].
    cbn [heap] in Hl.
    rewrite (free_chain_ok (State (heap st) (trace st ++ [EvIndex base i]))
               p l Hl) in E2.
    injection E2 as _ <-. unfold mret at 1, M_ret at 1 in Hrun.
    pose proof Hl as [Hne Hseg]%is_chain_inv.
    assert (base ∉ l) as Hbl.
    { intros Hin. destruct (lseg_live _ _ _ _ Hseg Hin) as (_ & nd & Hnd').
      congruence. }
    apply IH in Hrun as (cs & Hlen & Hc & Hnd); cbn [heap] in *.
    2:{ by rewrite lookup_drop_blocks, decide_False. }
    exists (l :: cs). split_and!.
    + cbn [length]. by rewrite Hlen.
    + rewrite (drop_S _ _ _ Hp). cbn [chains_at].
      rewrite Hl. cbn [andb].
      rewrite N2Nat.inj_succ in Hc.
      apply chains_at_mono with (drop_blocks (heap st) l);
        [apply drop_blocks_subseteq|done].
    + cbn [concat]. apply NoDup_app. split_and!; [|  |done].
      * by apply lseg_NoDup with (heap st) p.
      * intros a Ha Hin.
        destruct (chains_at_live _ _ _ _ Hc Hin) as (_ & nd & Hnd').
        rewrite lookup_drop_blocks in Hnd'. by rewrite decide_True in Hnd'.
Qed.

Lemma cluster_list_intro st base k heads cs :
  heap st !! base = Some (BPtrs heads) → base ≠ NULL →
  length cs = N.to_nat k → chains_at (heap st) heads cs = true →
  NoDup (concat cs) → cluster_list st base k cs = true.
Proof.
  intros Hb Hnn Hlen Hc Hnd. unfold cluster_list. rewrite Hb, Hc.
  apply ptr_eqb_neq in Hnn. rewrite Hnn. cbn [negb andb].
  rewrite (bool_decide_eq_true_2 _ Hlen), (bool_decide_eq_true_2 _ Hnd).
  done.
Qed.

End ChainNecessity.

(** ** Array loops: exact precondition, second call, reading past the end *)

Section SlotLoopEdges.
Variables (base : addr) (arr : block) (rd : N → M addr) (vals : list addr).
Hypothesis rd_ok : ∀ st i,
  heap st !! base = Some arr → (N.to_nat i < length vals)%nat →
  rd i st = Ok (slot_of vals i) (State (heap st) (trace st ++ [EvIndex base i])).
Hypothesis rd_oob : ∀ st i,
  heap st !! base = Some arr → (length vals ≤ N.to_nat i)%nat →
  rd i st = Fault (OutOfBounds base i).

Implicit Types (st : state) (order : list N).

Lemma releasable_dec st ps : Decision (releasable st ps).
Proof.
  destruct (decide (NoDup (non_null ps) ∧
                    Forall (λ p, is_Some (heap st !! p)) (non_null ps)))
    as [Hr|Hr].
  - left. destruct Hr as [Hnd Hall]. split; [done|]. by apply Forall_forall.
  - right. intros [Hnd Hall]. apply Hr. split; [done|]. by apply Forall_forall.
Qed.

(** The loop over the indices [order] returns exactly when the slots it
    reads can all be released. *)
Lemma release_in_ok_iff order st :
  heap st !! base = Some arr →
  Forall (λ i, (N.to_nat i < length vals)%nat) order →
  base ∉ non_null (slot_of vals <$> order) →
  (∃ st', release_in rd order st = Ok tt st') ↔
  releasable st (slot_of vals <$> order).
Proof.
  intros Hb Hrange Hbase. split.
  - intros [st' Hrun].
    destruct (releasable_dec st (slot_of vals <$> order)) as [Hr|Hr]; [done|].
    destruct (release_in_fault base arr rd vals rd_ok order st Hb Hrange
                Hbase Hr) as [f Hf].
    congruence.
  - intros Hr. eexists.
    by apply (release_in_ok base arr rd vals rd_ok).
Qed.

(** Once the first non-null slot has been released, the loop ends in a
    double free of that slot. *)
Lemma release_in_double order : ∀ st q rest,
  heap st !! base = Some arr →
  Forall (λ i, (N.to_nat i < length vals)%nat) order →
  non_null (slot_of vals <$> order) = q :: rest →
  heap st !! q = None → EvRelease q ∈ trace st →
  release_in rd order st = Fault (DoubleFree q).
Proof.
  induction order as [|i order IH]; intros st q rest Hb Hrange Hnn Hq Hrel;
    [done|].
  apply Forall_cons in Hrange as [Hi Hrange].
  unfold release_in. cbn [foldr]. fold (release_in rd order).
  rewrite bind_unfold, bind_unfold, (rd_ok st i Hb Hi).
  cbn [fmap list_fmap] in Hnn.
  destruct (ptr_eqb (slot_of vals i) NULL) eqn:E.
  - apply ptr_eqb_eq in E. rewrite E in *.
    rewrite free_null. rewrite non_null_cons_null in Hnn.
    apply (IH _ q rest); cbn [heap trace]; try done.
    apply elem_of_app. by left.
  - apply ptr_eqb_neq in E. rewrite non_null_cons in Hnn by done.
    injection Hnn as Hq' _. rewrite Hq' in *.
    unfold free. cbn [heap trace]. apply ptr_eqb_neq in E. rewrite E, Hq.
    unfold was_released. cbn [trace].
    rewrite bool_decide_eq_true_2; [done|]. apply elem_of_app. by left.
Qed.


End SlotLoopEdges.

Section ArrayEdges.
Implicit Types (st : state) (base : addr) (slots : list addr)
  (ps : list element).



Lemma in_release_trace_released base vals order q :
  q ∈ non_null (slot_of vals <$> order) →
  EvRelease q ∈ release_trace base vals order.
Proof.
  intros Hq. apply elem_of_releases_of.
  by rewrite releases_of_release_trace.
Qed.

End ArrayEdges.

(** ** Calling a release function a second time *)

Section SecondCall.
Variables (base : addr) (arr : block) (rd : N → M addr) (vals : list addr).
Hypothesis rd_ok : ∀ st i,
  heap st !! base = Some arr → (N.to_nat i < length vals)%nat →
  rd i st = Ok (slot_of vals i) (State (heap st) (trace st ++ [EvIndex base i])).

Implicit Types (st : state) (order : list N).

Lemma for_upto_twice c st :
  (for_upto c (λ j, p ← rd j; free p) ;;
   for_upto c (λ j, p ← rd j; free p)) st =
  (release_in rd (N_seq 0 (N.to_nat c)) ;;
   release_in rd (N_seq 0 (N.to_nat c))) st.
Proof.
  unfold for_upto. rewrite !bind_unfold, for_loop_release_in.
  destruct (release_in rd _ st) as [[] st1| |]; [|done..].
  apply for_loop_release_in.
Qed.

(** Releasing the same slots twice: harmless when they are all null, a
    double free of the first non-null slot otherwise. *)
Lemma release_in_twice order st :
  heap st !! base = Some arr →
  Forall (λ i, (N.to_nat i < length vals)%nat) order →
  base ∉ non_null (slot_of vals <$> order) →
  releasable st (slot_of vals <$> order) →
  (non_null (slot_of vals <$> order) = [] →
   ∃ st', (release_in rd order ;; release_in rd order) st = Ok tt st' ∧
          heap st' = heap st ∧ releases_of (events_since st st') = []) ∧
  (∀ q rest, non_null (slot_of vals <$> order) = q :: rest →
   (release_in rd order ;; release_in rd order) st = Fault (DoubleFree q)).
Proof.
  intros Hb Hrange Hbase Hrel.
  pose proof (release_in_ok base arr rd vals rd_ok order st Hb Hrange
                Hbase Hrel) as Hrun.
  split.
  - intros Hnil. rewrite Hnil in *. cbn [drop_blocks foldl] in Hrun.
    rewrite (bind_ok _ _ _ _ _ Hrun).
    rewrite (release_in_ok base arr rd vals rd_ok); cbn [heap trace];
      rewrite ?Hnil; try done.
    eexists. split; [done|]. cbn [heap]. split; [done|].
    rewrite <- app_assoc, events_since_app, releases_of_app.
    by rewrite releases_of_release_trace, Hnil.
  - intros q rest Hq.
    assert (q ∈ non_null (slot_of vals <$> order)) as Hin
      by (rewrite Hq; by left).
    rewrite (bind_ok _ _ _ _ _ Hrun).
    apply (release_in_double base arr rd vals rd_ok order _ q rest);
      cbn [heap trace]; try done.
    + rewrite lookup_drop_blocks, decide_False; [done|].
      intros Hb'. by apply Hbase.
    + rewrite lookup_drop_blocks. by rewrite decide_True.
    + apply elem_of_app. right. by apply in_release_trace_released.
Qed.

End SecondCall.

(** ** Chains that do not end in null *)

Section BrokenChains.
Implicit Types (st : state) (p q a base : addr) (h : gmap Z block)
  (l : list addr) (cs : list (list addr)).

Lemma lpath_cons_inv h p a l q :
  lpath h p (a :: l) q = true →
  p = a ∧ a ≠ NULL ∧
  ∃ nd, h !! a = Some (BNode nd) ∧ lpath h (next nd) l q = true.
Proof.
  cbn [lpath]. intros H.
  apply andb_true_iff in H as [H Hrest].
  apply andb_true_iff in H as [Hp Ha].
  apply ptr_eqb_eq in Hp. apply negb_true_iff, ptr_eqb_neq in Ha.
  destruct (h !! a) as [[nd| | |]|]; try discriminate. eauto.
Qed.

Lemma lpath_cons_intro h a l q nd :
  a ≠ NULL → h !! a = Some (BNode nd) → lpath h (next nd) l q = true →
  lpath h a (a :: l) q = true.
Proof.
  intros Ha Hnd Hl. cbn [lpath]. rewrite Hnd, Hl, ptr_eqb_refl.
  apply ptr_eqb_neq in Ha. by rewrite Ha.
Qed.

Lemma lpath_live h p l q a :
  lpath h p l q = true → a ∈ l → a ≠ NULL ∧ ∃ nd, h !! a = Some (BNode nd).
Proof.
  revert p. induction l as [|b l IH]; intros p Hl Hin.
  - by apply elem_of_nil in Hin.
  - apply lpath_cons_inv in Hl as (-> & Hb & nd & Hnd & Hl).
    apply elem_of_cons in Hin as [->|Hin]; eauto.
Qed.

Lemma lpath_delete h p l q a :
  a ∉ l → lpath h p l q = true → lpath (delete a h) p l q = true.
Proof.
  revert p. induction l as [|b l IH]; intros p Ha Hl; [done|].
  apply lpath_cons_inv in Hl as (-> & Hb & nd & Hnd & Hl).
  apply not_elem_of_cons in Ha as [Hab Ha].
  apply lpath_cons_intro with nd; auto.
  by rewrite lookup_delete_ne.
Qed.

Lemma lpath_drop_blocks h p l q qs :
  (∀ a, a ∈ qs → a ∉ l) → lpath h p l q = true →
  lpath (drop_blocks h qs) p l q = true.
Proof.
  revert h. induction qs as [|b qs IH]; intros h Hd Hl; [done|].
  rewrite drop_blocks_cons. apply IH.
  - intros a Ha. apply Hd. by right.
  - apply lpath_delete; [|done]. apply Hd. by left.
Qed.

Lemma releases_of_walk_trace l : releases_of (walk_trace l) = l.
Proof.
  induction l as [|a l IH]; [done|].
  unfold walk_trace. cbn [flat_map]. fold (walk_trace l).
  rewrite releases_of_app, IH. reflexivity.
Qed.

(** The loop walks along a path of distinct live nodes, releasing each of
    them, and goes on from the address the path leads to. *)
Lemma while_next_walk l : ∀ p fuel it st q,
  lpath (heap st) p l q = true → NoDup l → q ≠ NULL →
  (length l ≤ fuel)%nat →
  while_next fuel p it st =
  while_next (fuel - length l) q (it + length l)
    (State (drop_blocks (heap st) l) (trace st ++ walk_trace l)).
Proof.
  induction l as [|a l IH]; intros p fuel it st q Hl Hnd Hq Hfuel.
  - apply ptr_eqb_eq in Hl as ->. cbn [length drop_blocks foldl walk_trace flat_map].
    rewrite Nat.sub_0_r, Nat.add_0_r, app_nil_r. by destruct st.
  - destruct fuel as [|fuel]; [cbn [length] in Hfuel; lia|].
    apply NoDup_cons in Hnd as [Hnotin Hnd].
    apply lpath_cons_inv in Hl as (-> & Ha & nd & Hnode & Hl).
    assert (next nd ≠ NULL) as Hnx.
    { destruct l as [|b l].
      - by apply ptr_eqb_eq in Hl as ->.
      - by apply lpath_cons_inv in Hl as (-> & Hb & _). }
    rewrite (while_next_step fuel a nd it st Hnode Ha Hnx).
    rewrite (IH (next nd) fuel (S it) _ q); cbn [heap trace]; try done.
    + rewrite drop_blocks_cons.
      unfold walk_trace. cbn [flat_map length]. fold (walk_trace l).
      replace (S it + length l)%nat with (it + S (length l))%nat by lia.
      cbn [Nat.sub]. by rewrite <- !app_assoc.
    + by apply lpath_delete.
    + cbn [length] in Hfuel. lia.
Qed.

(** The traversal of a cluster whose chain leads to a node that has been
    released, by this traversal or before it, reads that node. *)
Lemma free_chain_into_released st p l q :
  lpath (heap st) p l q = true → NoDup l →
  q ≠ NULL → drop_blocks (heap st) l !! q = None →
  EvRelease q ∈ trace st ++ walk_trace l →
  free_chain p st = Fault (UseAfterFree q).
Proof.
  intros Hl Hnd Hq Hdead Hrel.
  assert (length l ≤ size (heap st))%nat as Hsz.
  { apply live_le_size; [done|]. intros a Ha.
    destruct (lpath_live _ _ _ _ _ Hl Ha) as (_ & nd & ->). eauto. }
  unfold free_chain.
  rewrite (bind_ok loop_fuel _ st (S (size (heap st))) st) by done.
  apply bind_fault.
  rewrite (while_next_walk l p _ 0%nat st q Hl Hnd Hq) by lia.
  replace (S (size (heap st)) - length l)%nat
    with (S (size (heap st) - length l)) by lia.
  cbn [while_next]. apply bind_fault.
  unfold load_next, bad_read. cbn [heap]. rewrite Hdead.
  apply ptr_eqb_neq in Hq. rewrite Hq.
  unfold was_released. cbn [trace].
  by rewrite bool_decide_eq_true_2.
Qed.

End BrokenChains.

(** ** What [free_cluster_list] can release *)

Section ClusterFrame.
Implicit Types (st s : state) (p q a base : addr) (h : gmap Z block).

Lemma nodes_only_refl st : nodes_only st st.
Proof.
  exists []. rewrite app_nil_r. split_and!; [done..|constructor|].
  by intros p ?%elem_of_nil.
Qed.

Lemma nodes_only_read st s e :
  (∀ p, e ≠ EvRelease p) → nodes_only st s →
  nodes_only st (State (heap s) (trace s ++ [e])).
Proof.
  intros He (t & Ht & Hh & Hnd & Hall). exists (t ++ [e]).
  assert (releases_of (t ++ [e]) = releases_of t) as ->.
  { rewrite releases_of_app. destruct e; cbn; rewrite ?app_nil_r; try done.
    by destruct (He p). }
  cbn [heap trace]. split_and!; [|done..]. by rewrite Ht, app_assoc.
Qed.

Lemma nodes_only_free_node st s p nd :
  nodes_only st s → heap s !! p = Some (BNode nd) →
  nodes_only st (State (delete p (heap s)) (trace s ++ [EvRelease p])).
Proof.
  intros (t & Ht & Hh & Hnd & Hall) Hp. exists (t ++ [EvRelease p]).
  rewrite Hh, lookup_drop_blocks in Hp.
  case_decide as Hin; [done|].
  rewrite releases_of_app. cbn [heap trace].
  change (releases_of [EvRelease p]) with [p].
  split_and!.
  - by rewrite Ht, app_assoc.
  - by rewrite drop_blocks_app, Hh.
  - apply NoDup_app. split_and!; [done| |apply NoDup_singleton].
    intros a Ha Ha'. apply list_elem_of_singleton in Ha' as ->. done.
  - intros a [Ha|Ha]%elem_of_app; [by apply Hall|].
    apply list_elem_of_singleton in Ha as ->. eauto.
Qed.

Lemma while_next_nodes_only st fuel : ∀ p it s z n s',
  while_next fuel p it s = Ok (z, n) s' →
  nodes_only st s → nodes_only st s'.
Proof.
  induction fuel as [|fuel IH]; intros p it s z n s' Hrun Hinv; [done|].
  cbn [while_next] in Hrun. rewrite bind_unfold in Hrun.
  destruct (load_next p s) as [nx s1| |] eqn:E1; [|done..].
  apply load_next_inv in E1 as (Hp & nd & Hnd & -> & ->).
  destruct (ptr_eqb (next nd) NULL) eqn:Enx.
  - injection Hrun as <- <- <-. by apply nodes_only_read.
  - cbn zeta in Hrun. rewrite bind_unfold in Hrun.
    rewrite load_next_ok with (nd := nd) in Hrun by done.
    rewrite bind_unfold in Hrun.
    rewrite free_live in Hrun by (cbn [heap]; eauto).
    cbn [heap trace] in Hrun.
    apply IH in Hrun; [done|].
    apply (nodes_only_free_node st
             (State (heap s) ((trace s ++ [EvNext p]) ++ [EvNext p])) p nd);
      [|done].
    apply (nodes_only_read st (State (heap s) (trace s ++ [EvNext p])));
      [done|].
    by apply nodes_only_read.
Qed.

Lemma free_chain_nodes_only st p s n s' :
  free_chain p s = Ok n s' → nodes_only st s → nodes_only st s'.
Proof.
  unfold free_chain.
  rewrite (bind_ok loop_fuel _ s (S (size (heap s))) s) by done.
  rewrite bind_unfold.
  destruct (while_next _ p 0%nat s) as [[z m] s1| |] eqn:E; [|done..].
  intros Hrun Hinv.
  pose proof (while_next_nodes_only st _ _ _ _ _ _ _ E Hinv) as Hinv1.
  apply while_next_inv in E as ((nd & Hz) & Hzn & _).
  rewrite bind_unfold in Hrun. cbn [fst snd] in Hrun.
  rewrite free_live in Hrun by (rewrite ?Hz; eauto).
  injection Hrun as _ <-. by apply nodes_only_free_node with nd.
Qed.

Lemma free_cluster_list_nodes_only k base st st' :
  free_cluster_list k base st = Ok tt st' → nodes_only st st'.
Proof.
  unfold free_cluster_list, for_upto.
  enough (∀ s, for_loop (N.to_nat k) 0
                 (λ i, ptr ← load_slot base i; free_chain ptr ;; mret tt) st
               = Ok tt s → nodes_only st s) as H by apply H.
  apply (for_loop_rule (λ _, nodes_only st)
           (λ o, ∀ s, o = Ok tt s → nodes_only st s)).
  - by intros s Hs s' [= <-].
  - intros j s Hj Hinv. rewrite bind_unfold.
    destruct (load_slot base j s) as [p s1| |] eqn:E1; [|done..].
    apply load_slot_inv in E1 as (slots & Hs & Hp & ->).
    rewrite bind_unfold.
    destruct (free_chain p _) as [n s2| |] eqn:E2; [|done..].
    unfold mret, M_ret.
    apply (free_chain_nodes_only st _ _ _ _ E2).
    by apply nodes_only_read.
  - apply nodes_only_refl.
Qed.

(** Releasing distinct live blocks lowers the number of live blocks by
    their number. *)
Lemma size_drop_blocks ps : ∀ h,
  NoDup ps → (∀ p, p ∈ ps → is_Some (h !! p)) →
  (size (drop_blocks h ps) + length ps = size h)%nat.
Proof.
  induction ps as [|p ps IH]; intros h Hnd Hlive; [simpl; lia|].
  apply NoDup_cons in Hnd as [Hnotin Hnd].
  assert (is_Some (h !! p)) as Hp by (apply Hlive; by left).
  rewrite drop_blocks_cons.
  pose proof (map_size_delete_Some p h Hp) as Hsz.
  assert (size h ≠ 0)%nat as Hnz.
  { destruct Hp as [b Hb]. apply map_size_ne_0_lookup_2 with p. eauto. }
  assert (size (drop_blocks (delete p h) ps) + length ps
          = size (delete p h))%nat as Hrec.
  { apply IH; [done|]. intros a Ha.
    rewrite lookup_delete_ne by (intros ->; done).
    apply Hlive. by right. }
  cbn [length]. lia.
Qed.

End ClusterFrame.

(** ** Releasing part of the structures, and two structures in turn *)

Section Composition.
Implicit Types (st : state) (p q a base : addr) (h : gmap Z block)
  (cs : list (list addr)) (slots : list addr).

Lemma chains_at_app h cs1 cs2 : ∀ heads,
  chains_at h heads (cs1 ++ cs2) = true →
  chains_at h heads cs1 = true ∧
  chains_at h (drop (length cs1) heads) cs2 = true.
Proof.
  induction cs1 as [|l cs1 IH]; intros heads Hc; [done|].
  destruct heads as [|p ps]; [by simpl in Hc|].
  cbn [app chains_at] in Hc. apply andb_true_iff in Hc as [Hl Hc].
  destruct (IH ps Hc) as [H1 H2].
  cbn [chains_at length drop]. by rewrite Hl, H1.
Qed.

Lemma non_null_app ps qs : non_null (ps ++ qs) = non_null ps ++ non_null qs.
Proof. unfold non_null. apply filter_app. Qed.

(** Releasing the slots of one array and then those of another one, when
    the rows of the two arrays are all distinct. *)
Lemma two_slot_arrays st b1 b2 c n s1 s2 :
  heap st !! b1 = Some (BPtrs s1) → heap st !! b2 = Some (BPtrs s2) →
  b1 ≠ NULL → b2 ≠ NULL →
  N.to_nat c = length s1 → N.to_nat n = length s2 →
  NoDup (non_null s1 ++ non_null s2) →
  (∀ p, p ∈ non_null s1 ++ non_null s2 → heap st !! p = Some BData) →
  (for_upto c (λ i, p ← load_slot b1 i; free p) ;;
   for_upto n (λ i, p ← load_slot b2 i; free p)) st =
  Ok tt (State (drop_blocks (heap st) (non_null s1 ++ non_null s2))
               (trace st ++ release_trace b1 s1 (N_seq 0 (N.to_nat c)) ++
                release_trace b2 s2 (N_seq 0 (N.to_nat n)))).
Proof.
  intros Hb1 Hb2 Hn1 Hn2 Hc Hn Hnd Hdata.
  apply NoDup_app in Hnd as (Hnd1 & Hdisj & Hnd2).
  assert (∀ b s, heap st !! b = Some (BPtrs s) →
            b ∉ non_null s1 ++ non_null s2) as Harr.
  { intros b s Hb Hin. apply Hdata in Hin. congruence. }
  erewrite bind_ok.
  2:{ apply (free_slots_ok st b1 c s1);
        rewrite ?Hc, ?firstn_all; try done; try lia.
      - intros Hin. apply (Harr b1 s1 Hb1). apply elem_of_app. by left.
      - split; [done|]. intros p Hp.
        rewrite (Hdata p) by (apply elem_of_app; by left). eauto. }
  rewrite Hc, firstn_all.
  rewrite (free_slots_ok _ b2 n s2);
    cbn [heap trace]; rewrite ?Hn, ?firstn_all; try done; try lia.
  - by rewrite drop_blocks_app, <- !app_assoc.
  - rewrite lookup_drop_blocks, decide_False; [done|].
    intros Hin. apply (Harr b2 s2 Hb2). apply elem_of_app. by left.
  - intros Hin. apply (Harr b2 s2 Hb2). apply elem_of_app. by right.
  - split; [done|]. intros p Hp. cbn [heap].
    rewrite lookup_drop_blocks, decide_False.
    + rewrite (Hdata p) by (apply elem_of_app; by right). eauto.
    + intros Hin. by apply (Hdisj p).
Qed.

End Composition.

(** ** What the slot loops can release *)

Section SlotsFrame.
Implicit Types (st : state) (p q a base : addr) (t : list event).

Lemma for_upto_slots_inv st base c st' :
  for_upto c (λ i, p ← load_slot base i; free p) st = Ok tt st' →
  slots_inv st base c st'.
Proof.
  unfold for_upto.
  enough (∀ s, for_loop (N.to_nat c) 0
                 (λ j, p ← load_slot base j; free p) st = Ok tt s →
               slots_inv st base c s) as H by apply H.
  apply (for_loop_rule (slots_inv st base)
           (λ o, ∀ s, o = Ok tt s → slots_inv st base c s)).
  - intros s Hs s' [= <-]. by rewrite N.add_0_l, N2Nat.id in Hs.
  - intros j s Hj (t & Ht & Hh & Hrel). rewrite bind_unfold.
    destruct (load_slot base j s) as [p s1| |] eqn:E1; [|done..].
    apply load_slot_inv in E1 as (slots & Hs & Hp & ->).
    assert (heap st !! base = Some (BPtrs slots)) as Hs0.
    { rewrite Hh, lookup_drop_blocks in Hs. by case_decide. }
    destruct (free p _) as [[] s2| |] eqn:E2; [|done..].
    apply free_inv in E2 as [[Hnull ->]|(Hnn & Hlive & ->)]; cbn [heap trace].
    + exists (t ++ [EvIndex base j]). rewrite releases_of_app, app_nil_r.
      cbn [heap trace]. split_and!; [by rewrite Ht, app_assoc|done|].
      intros q Hq. destruct (Hrel q Hq) as (sl & k & ? & ? & ? & ?).
      exists sl, k. split_and!; [done|lia|done..].
    + exists (t ++ [EvIndex base j; EvRelease p]).
      rewrite releases_of_app. cbn [heap trace].
      change (releases_of [EvIndex base j; EvRelease p]) with [p].
      split_and!.
      * rewrite Ht, <- !app_assoc. done.
      * by rewrite drop_blocks_app, Hh.
      * intros q [Hq|Hq]%elem_of_app.
        -- destruct (Hrel q Hq) as (sl & k & ? & ? & ? & ?).
           exists sl, k. split_and!; [done|lia|done..].
        -- apply list_elem_of_singleton in Hq as ->.
           exists slots, j. split_and!; [done|lia|done..].
  - exists []. rewrite app_nil_r. split_and!; [done..|].
    by intros p ?%elem_of_nil.
Qed.

End SlotsFrame.

(** ** The sample memories at work *)

(** Two heads that share a node: the second traversal reads a node that the
    first one released. *)
Example shared_head_is_read_after_release :
  free_cluster_list 2 100 Sample.shared_head = Fault (UseAfterFree 1).
Proof. vm_compute. reflexivity. Qed.

(** The scenario of four category slots, two of them null: two releases. *)
Example categories_two_releases :
  ∃ st', free_category_indices 4 100 Sample.categories = Ok tt st' ∧
         releases_of (trace st') = [5; 6].
Proof. eexists. split; vm_compute; reflexivity. Qed.

(** Releasing one point more than the loader allocated passes garbage to
    [free]. *)
Example points_one_too_many :
  free_points 5 100 4 Sample.points = Fault (InvalidFree 99).
Proof. vm_compute. reflexivity. Qed.

(** * The claims *)

(** C1.  On a cluster list of [k] chains, chain [i] being a null-terminated
    list of [m_i >= 1] nodes and no node being shared, [free_cluster_list]
    returns normally, and the blocks it released are exactly the nodes of the
    chains, chain after chain and each chain from head to tail: [Σ m_i]
    releases, no node released twice, no node of a chain left live, and no
    other block touched. *)
Theorem C1_free_cluster_list_releases_every_node_once
    (st : state) (base : addr) (k : N) (chains : list (list addr)) :
  cluster_list st base k chains = true →
  ∃ st',
    free_cluster_list k base st = Ok tt st' ∧
    releases_of (events_since st st') = concat chains ∧
    length (releases_of (events_since st st')) = sum_list (length <$> chains) ∧
    Forall (λ l, (1 ≤ length l)%nat) chains ∧
    NoDup (releases_of (events_since st st')) ∧
    (∀ a, a ∈ concat chains → heap st' !! a = None) ∧
    (∀ q, q ∉ concat chains → heap st' !! q = heap st !! q).
Proof.
  intros Hwf. pose proof (free_cluster_list_ok _ _ _ _ Hwf) as Hrun.
  apply cluster_list_inv in Hwf as (heads & Hb & Hnn & Hlen & Hc & Hnd).
  eexists. split; [exact Hrun|].
  rewrite events_since_app, releases_of_clusters_trace. cbn [heap].
  split_and!.
  - done.
  - apply length_concat_sum.
  - clear Hlen Hnd Hb Hrun. revert heads Hc.
    induction chains as [|l cs IH]; intros heads Hc; [constructor|].
    destruct heads as [|p ps]; [by simpl in Hc|].
    cbn [chains_at] in Hc. apply andb_true_iff in Hc as [Hl Hc].
    constructor; [|by apply IH with ps].
    apply is_chain_inv in Hl as [Hne _]. destruct l; [congruence|cbn [length]; lia].
  - done.
  - intros a Ha. rewrite lookup_drop_blocks. by rewrite decide_True.
  - intros q Hq. rewrite lookup_drop_blocks. by rewrite decide_False.
Qed.

Lemma C1_witness :
  cluster_list Sample.clusters 100 3 [[1]; [2; 3]; [4]] = true ∧
  ∃ st', free_cluster_list 3 100 Sample.clusters = Ok tt st' ∧
         releases_of (events_since Sample.clusters st') = [1; 2; 3; 4].
Proof.
  split; [reflexivity|].
  destruct (C1_free_cluster_list_releases_every_node_once
              Sample.clusters 100 3 [[1]; [2; 3]; [4]] eq_refl)
    as (st' & Hrun & Hrel & _).
  exists st'. split; [exact Hrun | exact Hrel].
Defined.

(** C2.  On a point store of [n] points whose first [validCount] points
    hold their feature vectors, [free_points] returns normally; it released
    exactly the [values] allocations of the points at indices below
    [validCount], one per index and in index order; it read the indices
    [0 .. validCount-1] and no index from [validCount] on; and the run is
    the same whatever is stored in the points from [validCount] on. *)
Theorem C2_free_points_releases_valid_prefix
    (st : state) (base : addr) (n i : N) (ps : list element) :
  heap st !! base = Some (BPoints ps) → base ≠ NULL →
  N.to_nat n = length ps → (i ≤ n)%N →
  owns_values (heap st) (values <$> take (N.to_nat i) ps) = true →
  ∃ st',
    free_points n base i st = Ok tt st' ∧
    releases_of (events_since st st') = values <$> take (N.to_nat i) ps ∧
    length (releases_of (events_since st st')) = N.to_nat i ∧
    NoDup (releases_of (events_since st st')) ∧
    indices_of (events_since st st') = N_seq 0 (N.to_nat i) ∧
    (∀ j, (i ≤ j)%N → EvIndex base j ∉ events_since st st') ∧
    heap st' = drop_blocks (heap st) (values <$> take (N.to_nat i) ps) ∧
    (∀ ps', take (N.to_nat i) ps' = take (N.to_nat i) ps →
       free_points n base i (State (<[base:=BPoints ps']> (heap st)) (trace st))
       = Ok tt (State (<[base:=BPoints ps']> (heap st')) (trace st'))).
Proof.
  intros Hb Hnn Hn Hi Hown.
  assert (N.to_nat i ≤ length ps)%nat as Hle by lia.
  pose proof (releasable_owned_values _ _ Hown) as Hrel.
  pose proof Hown as (Hnd & Hvs & Hdata)%owns_values_inv.
  assert (base ∉ values <$> take (N.to_nat i) ps) as Hbase.
  { intros Hin. apply Hdata in Hin. congruence. }
  pose proof (free_points_ok st base n i ps Hb Hnn Hle) as Hrun.
  rewrite Hvs in Hrun. specialize (Hrun Hbase Hrel).
  eexists. split; [exact Hrun|].
  rewrite events_since_app, releases_of_release_trace,
    indices_of_release_trace. cbn [heap trace].
  rewrite slot_of_N_seq_0 by (by rewrite length_fmap).
  rewrite <- fmap_take, Hvs.
  split_and!; try done.
  - rewrite length_fmap, length_take. lia.
  - intros j Hj Hin%index_in_release_trace%N_seq_range. lia.
  - intros ps' Htake.
    assert (N.to_nat i ≤ length ps')%nat as Hle'.
    { apply (f_equal length) in Htake. rewrite !length_take in Htake. lia. }
    rewrite (free_points_ok _ base n i ps'); cbn [heap trace];
      rewrite ?Htake, ?Hvs; try done.
    + f_equal. f_equal.
      * by apply drop_blocks_insert.
      * f_equal.
        rewrite <- (release_trace_take base (values <$> ps') _ (N.to_nat i))
          by apply N_seq_below.
        rewrite <- (release_trace_take base (values <$> ps) _ (N.to_nat i))
          by apply N_seq_below.
        by rewrite <- !fmap_take, Htake.
    + apply lookup_insert_eq.
    + destruct Hrel as [Hnd' Hall]. split; [done|].
      intros p Hp. cbn [heap]. rewrite lookup_insert_ne.
      * by apply Hall.
      * intros <-. by rewrite Hvs in Hp.
Qed.

Lemma C2_witness :
  (heap Sample.points !! 100 =
     Some (BPoints [Element 5; Element 6; Element 7; Element 99; Element 0]) ∧
   100 ≠ NULL ∧ N.to_nat 5 = 5%nat ∧ (3 ≤ 5)%N ∧
   owns_values (heap Sample.points) [5; 6; 7] = true) ∧
  ∃ st', free_points 5 100 3 Sample.points = Ok tt st' ∧
         releases_of (events_since Sample.points st') = [5; 6; 7] ∧
         indices_of (events_since Sample.points st') = [0; 1; 2]%N.
Proof.
  split; [split_and!; (reflexivity || discriminate)|].
  destruct (C2_free_points_releases_valid_prefix Sample.points 100 5 3
              [Element 5; Element 6; Element 7; Element 99; Element 0]
              eq_refl ltac:(discriminate) eq_refl ltac:(discriminate) eq_refl)
    as (st' & Hrun & Hrel & _ & _ & Hidx & _).
  exists st'. split_and!; [exact Hrun | exact Hrel | exact Hidx].
Defined.

(** C3.  On an array of [c] slots (of [n] rows), each slot being null or an
    owned row, [free_category_indices] and [free_distances] return normally;
    every slot was read once; the blocks released are exactly the non-null
    slots, each once and in index order; null is never released, and a
    [free] of the null pointer leaves every state as it is. *)
Theorem C3_non_null_slots_released_once
    (st : state) (base : addr) (c : N) (slots : list addr) :
  heap st !! base = Some (BPtrs slots) → base ≠ NULL →
  N.to_nat c = length slots →
  owns_rows (heap st) slots = true →
  ∃ st',
    free_category_indices c base st = Ok tt st' ∧
    free_distances c base st = Ok tt st' ∧
    indices_of (events_since st st') = N_seq 0 (N.to_nat c) ∧
    releases_of (events_since st st') = non_null slots ∧
    NoDup (releases_of (events_since st st')) ∧
    (NULL ∉ releases_of (events_since st st')) ∧
    heap st' = drop_blocks (heap st) (non_null slots) ∧
    (∀ s, free NULL s = Ok tt s).
Proof.
  intros Hb Hnn Hc Hown.
  pose proof (releasable_owned_rows _ _ Hown) as Hrel.
  pose proof Hown as [Hnd Hdata]%owns_rows_inv.
  assert (base ∉ non_null slots) as Hbase.
  { intros Hin. apply Hdata in Hin. congruence. }
  pose proof (free_slots_ok st base c slots Hb Hnn ltac:(lia)) as Hrun.
  rewrite Hc, firstn_all in Hrun. specialize (Hrun Hbase Hrel).
  eexists. split; [exact Hrun|]. split; [exact Hrun|].
  rewrite events_since_app, releases_of_release_trace,
    indices_of_release_trace. cbn [heap].
  rewrite Hc, slot_of_N_seq_0, firstn_all by done.
  split_and!; try done.
  apply non_null_no_null.
Qed.

Lemma C3_witness :
  (heap Sample.categories !! 100 = Some (BPtrs [0; 5; 0; 6]) ∧
   100 ≠ NULL ∧ N.to_nat 4 = 4%nat ∧
   owns_rows (heap Sample.categories) [0; 5; 0; 6] = true) ∧
  ∃ st', free_category_indices 4 100 Sample.categories = Ok tt st' ∧
         releases_of (events_since Sample.categories st') = [5; 6].
Proof.
  split; [split_and!; (reflexivity || discriminate)|].
  destruct (C3_non_null_slots_released_once Sample.categories 100 4
              [0; 5; 0; 6] eq_refl ltac:(discriminate) eq_refl eq_refl)
    as (st' & Hrun & _ & _ & Hrel & _).
  exists st'. split; [exact Hrun | exact Hrel].
Defined.

(** C4.  A null head is dereferenced: when the clusters before it are
    well-formed chains and the next head, at an index below [k], is null,
    [free_cluster_list] reads [next] through the null pointer.  When every
    head in [list[0..k)] is non-null, no null pointer is ever dereferenced,
    whatever the memory holds. *)
Theorem C4_null_head_is_dereferenced
    (st : state) (base : addr) (k : N) (heads : list addr) :
  heap st !! base = Some (BPtrs heads) → base ≠ NULL →
  (∀ cs, chains_at (heap st) heads cs = true → NoDup (concat cs) →
         (length cs < N.to_nat k)%nat → heads !! length cs = Some NULL →
         free_cluster_list k base st = Fault NullDeref) ∧
  ((∀ i, (i < N.to_nat k)%nat → heads !! i ≠ Some NULL) →
   free_cluster_list k base st ≠ Fault NullDeref).
Proof.
  intros Hb Hnn. split.
  - intros cs Hc Hnd Hlen Hnull.
    unfold free_cluster_list, for_upto.
    replace (N.to_nat k) with (length cs + S (N.to_nat k - length cs - 1))%nat
      by lia.
    rewrite for_loop_app.
    rewrite (bind_ok _ _ _ _ _
               (free_clusters_loop base heads cs 0 st Hb Hnn Hc Hnd)).
    cbn [for_loop]. apply bind_fault.
    assert (base ∉ concat cs) as Hbase.
    { intros Hin. destruct (chains_at_live _ _ _ _ Hc Hin) as (_ & nd & Hnd').
      congruence. }
    erewrite bind_ok.
    2:{ apply load_slot_ok with heads; cbn [heap]; [|done|].
        - by rewrite lookup_drop_blocks, decide_False.
        - rewrite N.add_0_l, Nat2N.id. exact Hnull. }
    apply bind_fault. apply free_chain_null.
  - intros Hheads. unfold free_cluster_list, for_upto.
    apply (for_loop_rule (λ _ s, heap s !! base = Some (BPtrs heads))
             (λ o, o ≠ Fault NullDeref)); [done| |done].
    intros j s Hj Hinv. rewrite bind_unfold.
    pose proof (load_slot_no_null_fault s base j Hnn) as Hld.
    destruct (load_slot base j s) as [p s1|f|] eqn:E1; [|congruence|done].
    apply load_slot_inv in E1 as (slots & Hs & Hp & ->).
    rewrite Hinv in Hs. injection Hs as <-.
    assert (p ≠ NULL) as Hpn.
    { intros ->. apply (Hheads (N.to_nat j)); [lia|done]. }
    rewrite bind_unfold.
    pose proof (free_chain_no_null_fault p
                  (State (heap s) (trace s ++ [EvIndex base j])) Hpn) as Hfc.
    destruct (free_chain p _) as [n s2|f|] eqn:E2; [|congruence|done].
    unfold mret, M_ret.
    apply (free_chain_inv _ _ _ _ E2 base (BPtrs heads)); [done|done].
Qed.

Lemma C4_witness :
  (heap Sample.null_head !! 100 = Some (BPtrs [1; 0; 4]) ∧ 100 ≠ NULL ∧
   chains_at (heap Sample.null_head) [1; 0; 4] [[1]] = true ∧
   NoDup (concat [[1]]) ∧ (length [[1]] < N.to_nat 3)%nat ∧
   [1; 0; 4] !! length [[1]] = Some NULL) ∧
  free_cluster_list 3 100 Sample.null_head = Fault NullDeref ∧
  (heap Sample.clusters !! 100 = Some (BPtrs [1; 2; 4]) ∧
   ∀ i, (i < N.to_nat 3)%nat → [1; 2; 4] !! i ≠ Some NULL) ∧
  free_cluster_list 3 100 Sample.clusters ≠ Fault NullDeref.
Proof.
  assert (NoDup (concat [[1]])) as Hnd
    by (apply (bool_decide_unpack _); vm_compute; exact I).
  assert (length [[1]] < N.to_nat 3)%nat as Hlen by (vm_compute; lia).
  assert (∀ i, (i < N.to_nat 3)%nat → [1; 2; 4] !! i ≠ Some NULL) as Hheads.
  { intros i Hi. change (N.to_nat 3) with 3%nat in Hi.
    destruct i as [|[|[|i]]]; [discriminate..|lia]. }
  split; [split_and!; (reflexivity || discriminate || done)|].
  split.
  { exact (proj1 (C4_null_head_is_dereferenced Sample.null_head 100 3 [1; 0; 4]
                    eq_refl ltac:(discriminate))
                 [[1]] eq_refl Hnd Hlen eq_refl). }
  split; [split; [reflexivity | exact Hheads]|].
  exact (proj2 (C4_null_head_is_dereferenced Sample.clusters 100 3 [1; 2; 4]
                  eq_refl ltac:(discriminate)) Hheads).
Defined.

(** C5.  The traversal goes strictly forward and never reads a released
    node.  One iteration on a node [a] with successor [b] reads [a->next]
    in the guard, reads it again to advance, releases the saved pointer [a]
    and continues from [b] with [a] gone from memory; on a node without
    successor the loop stops without releasing anything.  On a well-formed
    cluster list the whole run consists, cluster after cluster, of the read
    of the head followed by the traversal of the chain from head to tail;
    the nodes are released in chain order, none of them twice; every node
    is released right after the last read of its [next] field, and no
    [next] field is read after its node was released. *)
Theorem C5_release_only_after_advancing :
  (∀ fuel a nd it st,
     heap st !! a = Some (BNode nd) → a ≠ NULL → next nd ≠ NULL →
     while_next (S fuel) a it st =
     while_next fuel (next nd) (S it)
       (State (delete a (heap st))
              (trace st ++ [EvNext a; EvNext a; EvRelease a]))) ∧
  (∀ fuel a nd it st,
     heap st !! a = Some (BNode nd) → a ≠ NULL → next nd = NULL →
     while_next (S fuel) a it st =
     Ok (a, it) (State (heap st) (trace st ++ [EvNext a]))) ∧
  (∀ st base k chains,
     cluster_list st base k chains = true →
     ∃ st',
       free_cluster_list k base st = Ok tt st' ∧
       events_since st st' = clusters_trace base 0 chains ∧
       releases_of (events_since st st') = concat chains ∧
       NoDup (concat chains) ∧
       never_reads_released (events_since st st') ∧
       (∀ a, a ∈ concat chains →
          ∃ t1 t2, events_since st st' = t1 ++ EvNext a :: EvRelease a :: t2 ∧
                   (EvRelease a ∉ t1) ∧ (EvNext a ∉ t2))).
Proof.
  split_and!.
  - intros fuel a nd it st Hnd Ha Hnx.
    exact (while_next_step fuel a nd it st Hnd Ha Hnx).
  - intros fuel a nd it st Hnd Ha Hnx.
    exact (while_next_exit fuel a nd it st Hnd Ha Hnx).
  - intros st base k chains Hwf.
    pose proof (free_cluster_list_ok _ _ _ _ Hwf) as Hrun.
    apply cluster_list_inv in Hwf as (heads & Hb & Hnn & Hlen & Hc & Hnd).
    eexists. split; [exact Hrun|].
    rewrite events_since_app.
    split_and!;
      [done|apply releases_of_clusters_trace|done|by apply nrr_clusters_trace|].
    intros a Ha.
    destruct (release_in_clusters_trace base chains a 0 Ha)
      as (t1 & t2 & Heq).
    exists t1, t2. split; [done|].
    pose proof (nrr_clusters_trace base chains 0 Hnd) as Hnrr.
    split.
    + intros Hin. apply list_elem_of_split in Hin as (u1 & u2 & ->).
      rewrite <- app_assoc in Heq. cbn [app] in Heq.
      apply (Hnrr _ _ _ Heq). apply elem_of_app. right. by left.
    + apply (Hnrr (t1 ++ [EvNext a]) a t2).
      by rewrite <- app_assoc.
Qed.

Lemma C5_witness :
  cluster_list Sample.clusters 100 3 [[1]; [2; 3]; [4]] = true ∧
  ∃ st', free_cluster_list 3 100 Sample.clusters = Ok tt st' ∧
         events_since Sample.clusters st' =
           [EvIndex 100 0; EvNext 1; EvRelease 1;
            EvIndex 100 1; EvNext 2; EvNext 2; EvRelease 2;
                           EvNext 3; EvRelease 3;
            EvIndex 100 2; EvNext 4; EvRelease 4] ∧
         never_reads_released (events_since Sample.clusters st').
Proof.
  split; [reflexivity|].
  destruct (proj2 (proj2 C5_release_only_after_advancing)
              Sample.clusters 100 3%N [[1]; [2; 3]; [4]] eq_refl)
    as (st' & Hrun & Htrace & _ & _ & Hnrr & _).
  exists st'. split_and!; [exact Hrun | exact Htrace | exact Hnrr].
Defined.

(** C6.  On a null-terminated chain of [m >= 1] nodes the inner loop of
    [free_cluster_list] exits after exactly [m - 1] iterations (with less
    fuel than [m] guard evaluations it has not exited yet), standing on the
    last node, whose successor is absent; the [m - 1] other nodes have been
    released and the last one is still live.  The [free] after the loop
    releases that last node, so the chain has one node more than the loop
    made iterations. *)
Theorem C6_loop_runs_once_per_node_but_the_last
    (st : state) (p : addr) (l : list addr) :
  is_chain (heap st) p l = true →
  ∃ st1 st2 nd,
    (∀ fuel, (length l ≤ fuel)%nat →
       while_next fuel p 0 st = Ok (List.last l p, (length l - 1)%nat) st1) ∧
    (∀ fuel, (fuel < length l)%nat → while_next fuel p 0 st = Timeout) ∧
    releases_of (events_since st st1) = removelast l ∧
    heap st1 !! List.last l p = Some (BNode nd) ∧ next nd = NULL ∧
    free (List.last l p) st1 = Ok tt st2 ∧
    events_since st1 st2 = [EvRelease (List.last l p)] ∧
    free_chain p st = Ok (length l - 1)%nat st2 ∧
    heap st2 = drop_blocks (heap st) l ∧
    length l = S (length l - 1).
Proof.
  intros Hc. pose proof (free_chain_ok _ _ _ Hc) as Hrun.
  apply is_chain_inv in Hc as [Hne Hl].
  destruct l as [|a l]; [done|].
  pose proof Hl as (-> & _)%lseg_cons_inv.
  pose proof (lseg_NoDup _ _ _ Hl) as Hnd.
  pose proof (lseg_last _ _ _ Hl) as (Hz & nd & Hznd & Hnx).
  pose proof (app_removelast_last a Hne) as Hsplit.
  rewrite !last_cons_default in *.
  assert (List.last l a ∉ removelast (a :: l)) as Hnotin.
  { rewrite Hsplit in Hnd. apply NoDup_app in Hnd as (_ & Hdisj & _).
    intros Hin'. apply (Hdisj _ Hin'). by left. }
  assert (drop_blocks (heap st) (removelast (a :: l)) !! List.last l a
          = Some (BNode nd)) as Hlive.
  { by rewrite lookup_drop_blocks, decide_False. }
  assert (delete (List.last l a) (drop_blocks (heap st) (removelast (a :: l)))
          = drop_blocks (heap st) (a :: l)) as Hheap.
  { transitivity
      (drop_blocks (heap st) (removelast (a :: l) ++ [List.last l a])).
    - by rewrite drop_blocks_app.
    - by rewrite <- Hsplit. }
  eexists (State (drop_blocks (heap st) (removelast (a :: l)))
                 (trace st ++ loop_trace (a :: l))), _, nd.
  split_and!.
  - intros fuel Hfuel.
    rewrite (while_next_chain l a fuel 0%nat st Hl) by (cbn [length] in Hfuel; lia).
    do 2 f_equal. cbn [length]. lia.
  - intros fuel Hfuel. apply while_next_short with l; [done|].
    cbn [length] in Hfuel. lia.
  - by rewrite events_since_app, releases_of_loop_trace.
  - exact Hlive.
  - exact Hnx.
  - apply free_live; [done|]. cbn [heap]. rewrite Hlive. eauto.
  - unfold events_since. cbn [trace]. by rewrite drop_app_length.
  - rewrite Hrun. do 2 f_equal; [by rewrite <- Hheap|].
    rewrite (chain_trace_loop _ a Hne), last_cons_default.
    by rewrite app_assoc.
  - exact Hheap.
  - cbn [length]. lia.
Qed.

Lemma C6_witness :
  is_chain (heap Sample.clusters) 2 [2; 3] = true ∧
  ∃ st1, while_next 2 2 0 Sample.clusters = Ok (3, 1%nat) st1 ∧
         while_next 1 2 0 Sample.clusters = Timeout.
Proof.
  split; [reflexivity|].
  destruct (C6_loop_runs_once_per_node_but_the_last
              Sample.clusters 2 [2; 3] eq_refl)
    as (st1 & st2 & nd & Hok & Hshort & _).
  exists st1. split.
  - apply (Hok 2%nat). simpl. lia.
  - apply (Hshort 1%nat). simpl. lia.
Defined.

(** C7.  Whatever [free_points] releases is the [values] allocation of one
    of the points below [validCount]: it never passes the array itself to
    [free].  Unless some point's [values] field holds the address of the
    array, the array block is still live after the call, with the contents
    it had.  On a store whose first [validCount] points own their feature
    vectors the call returns and the array is kept. *)
Theorem C7_free_points_keeps_the_array
    (st : state) (base : addr) (n i : N) :
  (∀ st', free_points n base i st = Ok tt st' →
     (∀ p, p ∈ releases_of (events_since st st') →
        ∃ ps j e, heap st !! base = Some (BPoints ps) ∧ (j < i)%N ∧
                  ps !! N.to_nat j = Some e ∧ values e = p) ∧
     ((∀ ps j e, heap st !! base = Some (BPoints ps) → (j < i)%N →
                 ps !! N.to_nat j = Some e → values e ≠ base) →
      (EvRelease base ∉ events_since st st') ∧
      heap st' !! base = heap st !! base)) ∧
  (∀ ps, heap st !! base = Some (BPoints ps) → base ≠ NULL →
         (N.to_nat i ≤ length ps)%nat →
         owns_values (heap st) (values <$> take (N.to_nat i) ps) = true →
         ∃ st', free_points n base i st = Ok tt st' ∧
                (EvRelease base ∉ events_since st st') ∧
                heap st' !! base = Some (BPoints ps)).
Proof.
  split.
  - intros st' (t & Ht & Hh & Hrel)%free_points_inv.
    assert (events_since st st' = t) as ->.
    { unfold events_since. by rewrite Ht, drop_app_length. }
    split; [exact Hrel|].
    intros Hfresh.
    assert (base ∉ releases_of t) as Hbase.
    { intros (ps & j & e & Hps & Hj & He & Hv)%Hrel.
      by apply (Hfresh ps j e). }
    split.
    + by rewrite <- elem_of_releases_of.
    + by rewrite Hh, lookup_drop_blocks, decide_False.
  - intros ps Hb Hnn Hle Hown.
    pose proof (releasable_owned_values _ _ Hown) as Hrel.
    pose proof Hown as (Hnd & Hvs & Hdata)%owns_values_inv.
    assert (base ∉ values <$> take (N.to_nat i) ps) as Hbase.
    { intros Hin. apply Hdata in Hin. congruence. }
    pose proof (free_points_ok st base n i ps Hb Hnn Hle) as Hrun.
    rewrite Hvs in Hrun. specialize (Hrun Hbase Hrel).
    eexists. split; [exact Hrun|].
    rewrite events_since_app. cbn [heap]. split.
    + rewrite <- elem_of_releases_of, releases_of_release_trace.
      rewrite slot_of_N_seq_0 by (by rewrite length_fmap).
      by rewrite <- fmap_take, Hvs.
    + by rewrite lookup_drop_blocks, decide_False.
Qed.

Lemma C7_witness :
  free_points 5 100 3 Sample.points =
    Ok tt (State (list_to_map
                    [(100, BPoints [Element 5; Element 6; Element 7;
                                    Element 99; Element 0])])
                 [EvIndex 100 0; EvRelease 5; EvIndex 100 1; EvRelease 6;
                  EvIndex 100 2; EvRelease 7]) ∧
  (EvRelease 100 ∉
    [EvIndex 100 0; EvRelease 5; EvIndex 100 1; EvRelease 6;
     EvIndex 100 2; EvRelease 7]) ∧
  (list_to_map
     [(100, BPoints [Element 5; Element 6; Element 7; Element 99; Element 0])]
   : gmap Z block) !! 100 = heap Sample.points !! 100.
Proof.
  assert (free_points 5 100 3 Sample.points =
    Ok tt (State (list_to_map
                    [(100, BPoints [Element 5; Element 6; Element 7;
                                    Element 99; Element 0])])
                 [EvIndex 100 0; EvRelease 5; EvIndex 100 1; EvRelease 6;
                  EvIndex 100 2; EvRelease 7])) as Hrun
    by (vm_compute; reflexivity).
  split; [exact Hrun|].
  apply (proj2 (proj1 (C7_free_points_keeps_the_array Sample.points 100 5 3)
                  _ Hrun)).
  intros ps j e [= <-] Hj He.
  assert (N.to_nat j = 0 ∨ N.to_nat j = 1 ∨ N.to_nat j = 2)%nat
    as [Hk|[Hk|Hk]] by lia; rewrite Hk in He; injection He as <-; discriminate.
Defined.

(** C8.  Releasing the first [c] slots of a slot array in any order of the
    indices has the same effect as the index-order loop of
    [free_category_indices] and of [free_distances]: both runs succeed and
    leave the same memory, having released the same blocks, or both are
    undefined.  When every slot is null or an owned row they succeed, and
    the sets of released blocks are equal.  (The array itself is assumed
    not to be stored in one of its own slots.) *)
Theorem C8_release_order_is_irrelevant
    (st : state) (base : addr) (c : N) (slots : list addr) (order : list N) :
  heap st !! base = Some (BPtrs slots) → base ≠ NULL →
  (N.to_nat c ≤ length slots)%nat →
  base ∉ non_null (take (N.to_nat c) slots) →
  order ≡ₚ N_seq 0 (N.to_nat c) →
  same_effect (free_category_indices c base st)
              (release_in (load_slot base) order st) ∧
  same_effect (free_distances c base st)
              (release_in (load_slot base) order st) ∧
  (owns_rows (heap st) (take (N.to_nat c) slots) = true →
   ∃ s1 s2,
     free_category_indices c base st = Ok tt s1 ∧
     free_distances c base st = Ok tt s1 ∧
     release_in (load_slot base) order st = Ok tt s2 ∧
     heap s1 = heap s2 ∧
     list_to_set (C:=gset Z) (releases_of (events_since st s1)) =
     list_to_set (C:=gset Z) (releases_of (events_since st s2))).
Proof.
  intros Hb Hnn Hle Hbase Hperm.
  pose proof (N_seq_in_range slots 0 (N.to_nat c) ltac:(simpl; lia)) as Hrange.
  assert (base ∉ non_null (slot_of slots <$> N_seq 0 (N.to_nat c))) as Hbase'
    by (by rewrite slot_of_N_seq_0).
  assert (same_effect (free_category_indices c base st)
            (release_in (load_slot base) order st)) as Hsame.
  { unfold free_category_indices, for_upto. rewrite for_loop_release_in.
    apply (release_in_perm base (BPtrs slots) _ slots
             (load_slot_rd_ok base slots Hnn)); try done. }
  split_and!; [exact Hsame | exact Hsame |].
  intros Hown.
  pose proof (releasable_owned_rows _ _ Hown) as Hrel.
  pose proof (free_slots_ok st base c slots Hb Hnn Hle Hbase Hrel) as Hrun.
  assert (Forall (λ i, (N.to_nat i < length slots)%nat) order) as Hrange'
    by (by rewrite Hperm).
  assert (non_null (slot_of slots <$> order) ≡ₚ
          non_null (take (N.to_nat c) slots)) as Hps.
  { unfold non_null. rewrite Hperm. by rewrite slot_of_N_seq_0. }
  pose proof (release_in_ok base (BPtrs slots) _ slots
                (load_slot_rd_ok base slots Hnn) order st Hb Hrange') as Hrun'.
  eexists _, _. split; [exact Hrun|]. split; [exact Hrun|].
  split.
  { apply Hrun'.
    - by rewrite Hps.
    - eapply releasable_perm; [|exact Hrel].
      rewrite Hperm. by rewrite slot_of_N_seq_0. }
  cbn [heap]. split.
  - apply drop_blocks_perm. by rewrite Hps.
  - rewrite !events_since_app, !releases_of_release_trace.
    rewrite slot_of_N_seq_0 by done.
    apply set_eq. intros p. rewrite !elem_of_list_to_set. by rewrite Hps.
Qed.

Lemma C8_witness :
  (heap Sample.categories !! 100 = Some (BPtrs [0; 5; 0; 6]) ∧
   100 ≠ NULL ∧ (N.to_nat 4 ≤ 4)%nat ∧
   (100 ∉ non_null (take (N.to_nat 4) [0; 5; 0; 6])) ∧
   [3; 1; 0; 2]%N ≡ₚ N_seq 0 (N.to_nat 4)) ∧
  same_effect (free_category_indices 4 100 Sample.categories)
    (release_in (load_slot 100) [3; 1; 0; 2]%N Sample.categories).
Proof.
  assert (100 ∉ non_null (take (N.to_nat 4) [0; 5; 0; 6])) as H1
    by (apply (bool_decide_unpack _); vm_compute; exact I).
  assert ([3; 1; 0; 2]%N ≡ₚ N_seq 0 (N.to_nat 4)) as H2
    by (apply (bool_decide_unpack _); vm_compute; exact I).
  split; [split_and!; try (reflexivity || discriminate || done)|].
  exact (proj1 (C8_release_order_is_irrelevant Sample.categories 100 4
                    [0; 5; 0; 6] [3; 1; 0; 2]%N
                    eq_refl ltac:(discriminate) ltac:(vm_compute; lia) H1 H2)).
Defined.

(** C9.  With [k = 0], [free_cluster_list] returns at once on every memory
    and every array pointer, null or dangling ones included: the state is
    unchanged, so no head was read and nothing was released. *)
Theorem C9_free_cluster_list_empty (st : state) (base : addr) :
  free_cluster_list 0 base st = Ok tt st ∧
  events_since st st = [].
Proof.
  split; [reflexivity|].
  unfold events_since. by rewrite drop_all.
Qed.

(** C10.  The length parameter [n] of [free_points] has no influence on what
    it does; in particular a [validCount] larger than [n] is not rejected:
    with [n = 0] and [validCount = 3] the three feature vectors of the
    sample store are released. *)
Theorem C10_free_points_ignores_n :
  (∀ (n n' : N) (base : addr) (i : N) (st : state),
     free_points n base i st = free_points n' base i st) ∧
  (∃ st', free_points 0 100 3 Sample.points = Ok tt st' ∧
          releases_of (events_since Sample.points st') = [5; 6; 7]).
Proof.
  split; [reflexivity|].
  eexists. split; [vm_compute; reflexivity|]. vm_compute. reflexivity.
Qed.

(** * Further properties of the four functions *)

(** X1.  The precondition of [free_cluster_list] is exact: on an array of
    heads at a non-null address, the call returns normally if and only if
    the first [k] heads start null-terminated chains of at least one live
    node each that share no node. *)
Theorem X1_free_cluster_list_returns_iff_cluster_list
    (st : state) (base : addr) (k : N) (heads : list addr) :
  heap st !! base = Some (BPtrs heads) → base ≠ NULL →
  (∃ st', free_cluster_list k base st = Ok tt st') ↔
  (∃ chains, cluster_list st base k chains = true).
Proof.
  intros Hb Hnn. split.
  - intros [st' Hrun]. unfold free_cluster_list, for_upto in Hrun.
    apply (free_clusters_loop_inv base heads) in Hrun
      as (cs & Hlen & Hc & Hnd); [|done].
    exists cs. by apply cluster_list_intro with heads.
  - intros [chains Hwf]. eexists. by apply free_cluster_list_ok.
Qed.

Lemma X1_witness :
  (heap Sample.clusters !! 100 = Some (BPtrs [1; 2; 4]) ∧ 100 ≠ NULL) ∧
  ((∃ st', free_cluster_list 3 100 Sample.clusters = Ok tt st') ↔
   (∃ chains, cluster_list Sample.clusters 100 3 chains = true)).
Proof.
  split; [split; [reflexivity|discriminate]|].
  exact (X1_free_cluster_list_returns_iff_cluster_list
           Sample.clusters 100 3 [1; 2; 4] eq_refl ltac:(discriminate)).
Defined.

(** X2.  The precondition of [free_category_indices] and [free_distances]
    is exact: on an array of at least [c] slots that does not hold its own
    address, the call returns normally if and only if the non-null slots
    among the first [c] are distinct live blocks. *)
Theorem X2_slot_release_returns_iff_releasable
    (st : state) (base : addr) (c : N) (slots : list addr) :
  heap st !! base = Some (BPtrs slots) → base ≠ NULL →
  (N.to_nat c ≤ length slots)%nat →
  base ∉ non_null (take (N.to_nat c) slots) →
  ((∃ st', free_category_indices c base st = Ok tt st') ↔
   releasable st (take (N.to_nat c) slots)) ∧
  ((∃ st', free_distances c base st = Ok tt st') ↔
   releasable st (take (N.to_nat c) slots)).
Proof.
  intros Hb Hnn Hle Hbase.
  pose proof (release_in_ok_iff base (BPtrs slots) (load_slot base) slots
                (load_slot_rd_ok base slots Hnn)
                (N_seq 0 (N.to_nat c)) st Hb) as Hiff.
  rewrite slot_of_N_seq_0 in Hiff by done.
  assert (N.to_nat 0 + N.to_nat c ≤ length slots)%nat as Hle0
    by (simpl; lia).
  specialize (Hiff (N_seq_in_range slots 0 _ Hle0) Hbase).
  assert ((∃ st', free_category_indices c base st = Ok tt st') ↔
          releasable st (take (N.to_nat c) slots)) as H.
  { rewrite <- Hiff. unfold free_category_indices, for_upto.
    split; intros [st' Hrun]; exists st'.
    - by rewrite <- for_loop_release_in.
    - by rewrite for_loop_release_in. }
  split; exact H.
Qed.

Lemma X2_witness :
  (heap Sample.categories !! 100 = Some (BPtrs [0; 5; 0; 6]) ∧ 100 ≠ NULL ∧
   (N.to_nat 4 ≤ length [0; 5; 0; 6])%nat ∧
   (100 ∉ non_null (take (N.to_nat 4) [0; 5; 0; 6]))) ∧
  ((∃ st', free_category_indices 4 100 Sample.categories = Ok tt st') ↔
   releasable Sample.categories (take (N.to_nat 4) [0; 5; 0; 6])).
Proof.
  assert (100 ∉ non_null (take (N.to_nat 4) [0; 5; 0; 6])) as H1
    by (apply (bool_decide_unpack _); vm_compute; exact I).
  assert (N.to_nat 4 ≤ length [0; 5; 0; 6])%nat as H2 by (vm_compute; lia).
  split; [split_and!; [reflexivity|discriminate|exact H2|exact H1]|].
  exact (proj1 (X2_slot_release_returns_iff_releasable Sample.categories 100 4
                  [0; 5; 0; 6] eq_refl ltac:(discriminate) H2 H1)).
Defined.

(** X3.  The precondition of [free_points] is exact, and it tolerates null
    [values] fields: on a store of at least [validCount] points that does
    not hold its own address in a [values] field, the call returns normally
    if and only if the non-null [values] pointers of the first [validCount]
    points are distinct live blocks. *)
Theorem X3_free_points_returns_iff_releasable
    (st : state) (base : addr) (n i : N) (ps : list element) :
  heap st !! base = Some (BPoints ps) → base ≠ NULL →
  (N.to_nat i ≤ length ps)%nat →
  base ∉ non_null (values <$> take (N.to_nat i) ps) →
  (∃ st', free_points n base i st = Ok tt st') ↔
  releasable st (values <$> take (N.to_nat i) ps).
Proof.
  intros Hb Hnn Hle Hbase.
  assert (N.to_nat i ≤ length (values <$> ps))%nat as Hle'
    by (by rewrite length_fmap).
  pose proof (release_in_ok_iff base (BPoints ps) (load_values base)
                (values <$> ps) (load_values_rd_ok base ps Hnn)
                (N_seq 0 (N.to_nat i)) st Hb) as Hiff.
  rewrite slot_of_N_seq_0, <- fmap_take in Hiff by done.
  assert (N.to_nat 0 + N.to_nat i ≤ length (values <$> ps))%nat as Hle0
    by (simpl; lia).
  specialize (Hiff (N_seq_in_range _ 0 _ Hle0) Hbase).
  rewrite <- Hiff. unfold free_points, for_upto.
  split; intros [st' Hrun]; exists st'.
  - by rewrite <- for_loop_release_in.
  - by rewrite for_loop_release_in.
Qed.

Lemma X3_witness :
  (heap Sample.points !! 100 =
     Some (BPoints [Element 5; Element 6; Element 7; Element 99; Element 0]) ∧
   100 ≠ NULL ∧ (N.to_nat 4 ≤ 5)%nat) ∧
  ¬ (∃ st', free_points 5 100 4 Sample.points = Ok tt st').
Proof.
  assert (N.to_nat 4 ≤ 5)%nat as H2 by (vm_compute; lia).
  assert (100 ∉ non_null (values <$> take (N.to_nat 4)
            [Element 5; Element 6; Element 7; Element 99; Element 0])) as H1
    by (apply (bool_decide_unpack _); vm_compute; exact I).
  split; [split_and!; [reflexivity|discriminate|exact H2]|].
  intros Hrun.
  apply (X3_free_points_returns_iff_releasable Sample.points 100 5 4
           [Element 5; Element 6; Element 7; Element 99; Element 0]
           eq_refl ltac:(discriminate) H2 H1) in Hrun as [_ Hlive].
  destruct (Hlive 99) as [b Hb]; [|discriminate Hb].
  apply (bool_decide_unpack _). vm_compute. exact I.
Defined.

(** X4.  [free_cluster_list] is not idempotent: a second call on the same
    array of [k >= 1] heads reads the first node of the first chain, which
    the first call released. *)
Theorem X4_free_cluster_list_twice
    (st : state) (base : addr) (k : N) (chains : list (list addr)) :
  cluster_list st base k chains = true → (0 < k)%N →
  ∃ p l cs,
    chains = (p :: l) :: cs ∧
    (free_cluster_list k base ;; free_cluster_list k base) st
      = Fault (UseAfterFree p).
Proof.
  intros Hwf Hk. pose proof (free_cluster_list_ok _ _ _ _ Hwf) as Hrun.
  apply cluster_list_inv in Hwf as (heads & Hb & Hnn & Hlen & Hc & Hnd).
  destruct chains as [|c0 cs]; [cbn [length] in Hlen; lia|].
  destruct heads as [|p heads]; [by simpl in Hc|].
  cbn [chains_at] in Hc. apply andb_true_iff in Hc as [Hl Hc].
  apply is_chain_inv in Hl as [Hne Hl].
  destruct c0 as [|a l]; [done|].
  pose proof Hl as (-> & Ha & _)%lseg_cons_inv.
  exists a, l, cs. split; [done|].
  rewrite (bind_ok _ _ _ _ _ Hrun).
  unfold free_cluster_list, for_upto. rewrite <- Hlen. cbn [length for_loop].
  apply bind_fault.
  assert (base ∉ concat ((a :: l) :: cs)) as Hbase.
  { intros Hin.
    assert (chains_at (heap st) (a :: heads) ((a :: l) :: cs) = true) as Hc'.
    { cbn [chains_at]. by rewrite Hc, (is_chain_intro _ _ _ Hne Hl). }
    destruct (chains_at_live _ _ _ _ Hc' Hin) as (_ & nd & Hnd').
    congruence. }
  erewrite bind_ok.
  2:{ apply load_slot_ok with (a :: heads); cbn [heap]; [|done|done].
      by rewrite lookup_drop_blocks, decide_False. }
  apply bind_fault. unfold free_chain.
  erewrite bind_ok by reflexivity.
  apply bind_fault. cbn [while_next]. apply bind_fault.
  unfold load_next, bad_read. cbn [heap trace].
  rewrite lookup_drop_blocks, decide_True by (cbn [concat]; by left).
  apply ptr_eqb_neq in Ha. rewrite Ha.
  unfold was_released. cbn [trace].
  rewrite bool_decide_eq_true_2; [done|].
  apply elem_of_app. left. apply elem_of_app. right.
  apply elem_of_releases_of. rewrite releases_of_clusters_trace.
  cbn [concat]. by left.
Qed.

Lemma X4_witness :
  (cluster_list Sample.clusters 100 3 [[1]; [2; 3]; [4]] = true ∧ (0 < 3)%N) ∧
  ∃ p, (free_cluster_list 3 100 ;; free_cluster_list 3 100) Sample.clusters
       = Fault (UseAfterFree p).
Proof.
  split; [split; reflexivity|].
  destruct (X4_free_cluster_list_twice Sample.clusters 100 3
              [[1]; [2; 3]; [4]] eq_refl eq_refl) as (p & l & cs & _ & Hrun).
  exists p. exact Hrun.
Defined.

(** X5.  A second call of [free_category_indices] or [free_distances] on
    the same array is harmless when the first [c] slots are all null, and a
    double free of the first non-null slot otherwise: the functions do not
    clear the slots they release. *)
Theorem X5_slot_release_twice
    (st : state) (base : addr) (c : N) (slots : list addr) :
  heap st !! base = Some (BPtrs slots) → base ≠ NULL →
  (N.to_nat c ≤ length slots)%nat →
  owns_rows (heap st) (take (N.to_nat c) slots) = true →
  (non_null (take (N.to_nat c) slots) = [] →
   ∃ st',
     (free_category_indices c base ;; free_category_indices c base) st
       = Ok tt st' ∧
     (free_distances c base ;; free_distances c base) st = Ok tt st' ∧
     heap st' = heap st ∧ releases_of (events_since st st') = []) ∧
  (∀ q rest, non_null (take (N.to_nat c) slots) = q :: rest →
     (free_category_indices c base ;; free_category_indices c base) st
       = Fault (DoubleFree q) ∧
     (free_distances c base ;; free_distances c base) st
       = Fault (DoubleFree q)).
Proof.
  intros Hb Hnn Hle Hown.
  pose proof (releasable_owned_rows _ _ Hown) as Hrel.
  pose proof Hown as [Hnd Hdata]%owns_rows_inv.
  assert (base ∉ non_null (take (N.to_nat c) slots)) as Hbase.
  { intros Hin. apply Hdata in Hin. congruence. }
  assert (N.to_nat 0 + N.to_nat c ≤ length slots)%nat as Hle0
    by (simpl; lia).
  pose proof (release_in_twice base (BPtrs slots) (load_slot base) slots
                (load_slot_rd_ok base slots Hnn)
                (N_seq 0 (N.to_nat c)) st Hb
                (N_seq_in_range slots 0 _ Hle0)) as Htwice.
  rewrite slot_of_N_seq_0 in Htwice by done.
  destruct (Htwice Hbase Hrel) as [Hnull Hdouble].
  unfold free_category_indices, free_distances.
  rewrite for_upto_twice. split.
  - intros Hnil. destruct (Hnull Hnil) as (st' & Hrun & Hheap & Hnone).
    by exists st'.
  - intros q rest Hq. split; by apply (Hdouble q rest).
Qed.

Lemma X5_witness :
  (heap Sample.categories !! 100 = Some (BPtrs [0; 5; 0; 6]) ∧ 100 ≠ NULL ∧
   (N.to_nat 4 ≤ length [0; 5; 0; 6])%nat ∧
   owns_rows (heap Sample.categories) (take (N.to_nat 4) [0; 5; 0; 6]) = true ∧
   non_null (take (N.to_nat 4) [0; 5; 0; 6]) = [5; 6]) ∧
  (free_category_indices 4 100 ;; free_category_indices 4 100)
    Sample.categories = Fault (DoubleFree 5).
Proof.
  assert (N.to_nat 4 ≤ length [0; 5; 0; 6])%nat as H2 by (vm_compute; lia).
  split; [split_and!; [reflexivity|discriminate|exact H2|reflexivity..]|].
  exact (proj1 (proj2 (X5_slot_release_twice Sample.categories 100 4
                         [0; 5; 0; 6] eq_refl ltac:(discriminate) H2 eq_refl)
                      5 [6] eq_refl)).
Defined.

(** X6.  [free_points] is not idempotent either: after a successful release
    of [validCount >= 1] feature vectors, a second call with the same
    arguments is a double free of the feature vector of the first point. *)
Theorem X6_free_points_twice
    (st : state) (base : addr) (n i : N) (e : element) (ps : list element) :
  heap st !! base = Some (BPoints (e :: ps)) → base ≠ NULL →
  (0 < i)%N → (N.to_nat i ≤ length (e :: ps))%nat →
  owns_values (heap st) (values <$> take (N.to_nat i) (e :: ps)) = true →
  (free_points n base i ;; free_points n base i) st
    = Fault (DoubleFree (values e)).
Proof.
  intros Hb Hnn Hi Hle Hown.
  pose proof (releasable_owned_values _ _ Hown) as Hrel.
  pose proof Hown as (Hnd & Hvs & Hdata)%owns_values_inv.
  assert (base ∉ non_null (values <$> take (N.to_nat i) (e :: ps))) as Hbase.
  { rewrite Hvs. intros Hin. apply Hdata in Hin. congruence. }
  assert (N.to_nat 0 + N.to_nat i ≤ length (values <$> e :: ps))%nat as Hle0
    by (rewrite length_fmap; change (N.to_nat 0) with 0%nat; lia).
  pose proof (release_in_twice base (BPoints (e :: ps)) (load_values base)
                (values <$> e :: ps) (load_values_rd_ok base (e :: ps) Hnn)
                (N_seq 0 (N.to_nat i)) st Hb
                (N_seq_in_range _ 0 _ Hle0)) as Htwice.
  rewrite slot_of_N_seq_0, <- fmap_take in Htwice
    by (rewrite length_fmap; done).
  destruct (Htwice Hbase Hrel) as [_ Hdouble].
  unfold free_points. rewrite for_upto_twice.
  apply (Hdouble (values e)
           (values <$> take (N.to_nat i - 1) ps)).
  rewrite Hvs.
  assert (N.to_nat i = S (N.to_nat i - 1)) as Em by lia.
  rewrite Em at 1. reflexivity.
Qed.

Lemma X6_witness :
  (heap Sample.points !! 100 =
     Some (BPoints (Element 5 ::
                    [Element 6; Element 7; Element 99; Element 0])) ∧
   100 ≠ NULL ∧ (0 < 3)%N ∧ (N.to_nat 3 ≤ 5)%nat ∧
   owns_values (heap Sample.points) [5; 6; 7] = true) ∧
  (free_points 5 100 3 ;; free_points 5 100 3) Sample.points
    = Fault (DoubleFree 5).
Proof.
  assert (N.to_nat 3 ≤ 5)%nat as H2 by (vm_compute; lia).
  split; [split_and!; [reflexivity|discriminate|reflexivity|exact H2
                      |reflexivity]|].
  exact (X6_free_points_twice Sample.points 100 5 3 (Element 5)
           [Element 6; Element 7; Element 99; Element 0]
           eq_refl ltac:(discriminate) eq_refl H2 eq_refl).
Defined.







(** X10.  A chain that is cyclic, or that runs into a node of an earlier
    cluster, is read after release.  When the clusters before index [j] are
    well-formed chains and the chain of cluster [j < k] walks along fresh
    nodes [l] to a node [q] that lies on [l] itself or on an earlier chain,
    [free_cluster_list] ends by reading [q->next] after [q] was released. *)
Theorem X10_cyclic_or_shared_chain_is_read_after_release
    (st : state) (base : addr) (k : N) (heads : list addr)
    (cs : list (list addr)) (p : addr) (l : list addr) (q : addr) :
  heap st !! base = Some (BPtrs heads) → base ≠ NULL →
  chains_at (heap st) heads cs = true →
  (length cs < N.to_nat k)%nat → heads !! length cs = Some p →
  lpath (heap st) p l q = true →
  NoDup (concat cs ++ l) → q ∈ concat cs ++ l →
  free_cluster_list k base st = Fault (UseAfterFree q).
Proof.
  intros Hb Hnn Hc Hlen Hp Hl Hnd Hq.
  apply NoDup_app in Hnd as (Hndcs & Hdisj & Hndl).
  assert (base ∉ concat cs) as Hbase.
  { intros Hin. destruct (chains_at_live _ _ _ _ Hc Hin) as (_ & nd & Hnd').
    congruence. }
  assert (q ≠ NULL) as Hqn.
  { apply elem_of_app in Hq as [Hq|Hq].
    - by destruct (chains_at_live _ _ _ _ Hc Hq).
    - by destruct (lpath_live _ _ _ _ _ Hl Hq). }
  unfold free_cluster_list, for_upto.
  replace (N.to_nat k) with (length cs + S (N.to_nat k - length cs - 1))%nat
    by lia.
  rewrite for_loop_app.
  rewrite (bind_ok _ _ _ _ _
             (free_clusters_loop base heads cs 0 st Hb Hnn Hc Hndcs)).
  cbn [for_loop]. apply bind_fault.
  erewrite bind_ok.
  2:{ apply load_slot_ok with heads; cbn [heap]; [|done|].
      - by rewrite lookup_drop_blocks, decide_False.
      - rewrite N.add_0_l, Nat2N.id. exact Hp. }
  apply bind_fault.
  apply free_chain_into_released with l; cbn [heap trace]; try done.
  - apply lpath_drop_blocks; [|done]. intros a Ha Hal. by apply (Hdisj a).
  - rewrite <- drop_blocks_app, lookup_drop_blocks. by rewrite decide_True.
  - apply elem_of_app in Hq as [Hq|Hq].
    + apply elem_of_app. left. apply elem_of_app. left.
      apply elem_of_app. right. apply elem_of_releases_of.
      by rewrite releases_of_clusters_trace.
    + apply elem_of_app. right. apply elem_of_releases_of.
      by rewrite releases_of_walk_trace.
Qed.

Lemma X10_witness :
  (heap Sample2.lasso !! 100 = Some (BPtrs [1]) ∧ 100 ≠ NULL ∧
   chains_at (heap Sample2.lasso) [1] [] = true ∧
   (length ([] : list (list Z)) < N.to_nat 1)%nat ∧
   [1] !! length ([] : list (list Z)) = Some 1 ∧
   lpath (heap Sample2.lasso) 1 [1; 2; 3] 2 = true) ∧
  free_cluster_list 1 100 Sample2.lasso = Fault (UseAfterFree 2).
Proof.
  assert (length ([] : list (list Z)) < N.to_nat 1)%nat as H1
    by (vm_compute; lia).
  assert (NoDup (concat [] ++ [1; 2; 3])) as H2
    by (apply (bool_decide_unpack _); vm_compute; exact I).
  assert (2 ∈ concat [] ++ [1; 2; 3]) as H3
    by (apply (bool_decide_unpack _); vm_compute; exact I).
  split; [split_and!; [reflexivity|discriminate|reflexivity|exact H1
                      |reflexivity..]|].
  exact (X10_cyclic_or_shared_chain_is_read_after_release Sample2.lasso
           100 1 [1] [] 1 [1; 2; 3] 2
           eq_refl ltac:(discriminate) eq_refl H1 eq_refl eq_refl H2 H3).
Defined.

(** X11.  Whatever the memory holds, a call of [free_cluster_list] that
    returns has released only blocks that were live [struct node]s, each
    once; the memory afterwards is the initial one without them, so the
    number of live blocks went down by exactly the number of releases, and
    every block that is not a [struct node] (the array of heads, category
    rows, distance rows, point stores) is untouched. *)
Theorem X11_free_cluster_list_releases_only_nodes
    (st : state) (base : addr) (k : N) (st' : state) :
  free_cluster_list k base st = Ok tt st' →
  heap st' = drop_blocks (heap st) (releases_of (events_since st st')) ∧
  NoDup (releases_of (events_since st st')) ∧
  (∀ p, p ∈ releases_of (events_since st st') →
     ∃ nd, heap st !! p = Some (BNode nd)) ∧
  (size (heap st') + length (releases_of (events_since st st'))
   = size (heap st))%nat ∧
  (∀ q b, heap st !! q = Some b → (∀ nd, b ≠ BNode nd) →
     heap st' !! q = Some b).
Proof.
  intros (t & Ht & Hh & Hnd & Hall)%free_cluster_list_nodes_only.
  assert (events_since st st' = t) as ->.
  { unfold events_since. by rewrite Ht, drop_app_length. }
  split_and!; [done..| |].
  - rewrite Hh. apply size_drop_blocks; [done|].
    intros p Hp. destruct (Hall p Hp) as [nd ->]. eauto.
  - intros q b Hq Hb. rewrite Hh, lookup_drop_blocks.
    case_decide as Hin; [|done].
    destruct (Hall q Hin) as [nd Hnode]. rewrite Hq in Hnode.
    injection Hnode as ->. by destruct (Hb nd).
Qed.

Lemma X11_witness :
  free_cluster_list 3 100 Sample2.mixed =
    Ok tt (State (list_to_map [(100, BPtrs [1; 2; 4]);
                               (200, BPtrs [0; 5]); (5, BData)])
                 [EvIndex 100 0; EvNext 1; EvRelease 1;
                  EvIndex 100 1; EvNext 2; EvNext 2; EvRelease 2;
                  EvNext 3; EvRelease 3;
                  EvIndex 100 2; EvNext 4; EvRelease 4]) ∧
  (list_to_map [(100, BPtrs [1; 2; 4]); (200, BPtrs [0; 5]); (5, BData)]
   : gmap Z block) !! 5 = Some BData.
Proof.
  assert (free_cluster_list 3 100 Sample2.mixed =
    Ok tt (State (list_to_map [(100, BPtrs [1; 2; 4]);
                               (200, BPtrs [0; 5]); (5, BData)])
                 [EvIndex 100 0; EvNext 1; EvRelease 1;
                  EvIndex 100 1; EvNext 2; EvNext 2; EvRelease 2;
                  EvNext 3; EvRelease 3;
                  EvIndex 100 2; EvNext 4; EvRelease 4])) as Hrun
    by (vm_compute; reflexivity).
  split; [exact Hrun|].
  destruct (X11_free_cluster_list_releases_only_nodes Sample2.mixed 100 3 _
              Hrun) as (_ & _ & _ & _ & Hkeep).
  apply (Hkeep 5 BData); [reflexivity|discriminate].
Defined.

(** X12.  A call with [k] smaller than the number of clusters releases the
    chains of the first [k] clusters only: the later clusters are still
    well-formed chains afterwards, with every node as it was. *)
Theorem X12_later_clusters_are_kept
    (st : state) (base : addr) (k : N) (heads : list addr)
    (cs1 cs2 : list (list addr)) :
  heap st !! base = Some (BPtrs heads) → base ≠ NULL →
  length cs1 = N.to_nat k →
  chains_at (heap st) heads (cs1 ++ cs2) = true →
  NoDup (concat (cs1 ++ cs2)) →
  ∃ st',
    free_cluster_list k base st = Ok tt st' ∧
    releases_of (events_since st st') = concat cs1 ∧
    chains_at (heap st') (drop (N.to_nat k) heads) cs2 = true ∧
    (∀ a, a ∈ concat cs2 → heap st' !! a = heap st !! a).
Proof.
  intros Hb Hnn Hlen Hc Hnd.
  rewrite concat_app in Hnd. apply NoDup_app in Hnd as (Hnd1 & Hdisj & Hnd2).
  apply chains_at_app in Hc as [Hc1 Hc2].
  pose proof (free_cluster_list_ok st base k cs1
                (cluster_list_intro _ _ _ _ _ Hb Hnn Hlen Hc1 Hnd1)) as Hrun.
  eexists. split; [exact Hrun|].
  rewrite events_since_app, releases_of_clusters_trace. cbn [heap].
  split_and!; [done| |].
  - rewrite <- Hlen. apply chains_at_drop_blocks; [|done].
    intros q Hq Hin. by apply (Hdisj q).
  - intros a Ha. rewrite lookup_drop_blocks, decide_False; [done|].
    intros Hin. by apply (Hdisj a).
Qed.

Lemma X12_witness :
  (heap Sample.clusters !! 100 = Some (BPtrs [1; 2; 4]) ∧ 100 ≠ NULL ∧
   length [[1]] = N.to_nat 1 ∧
   chains_at (heap Sample.clusters) [1; 2; 4] ([[1]] ++ [[2; 3]; [4]]) = true) ∧
  ∃ st', free_cluster_list 1 100 Sample.clusters = Ok tt st' ∧
         releases_of (events_since Sample.clusters st') = concat [[1]] ∧
         chains_at (heap st') (drop (N.to_nat 1) [1; 2; 4]) [[2; 3]; [4]]
           = true.
Proof.
  assert (NoDup (concat ([[1]] ++ [[2; 3]; [4]]))) as H3
    by (apply (bool_decide_unpack _); vm_compute; exact I).
  split; [split_and!; [reflexivity|discriminate|reflexivity..]|].
  destruct (X12_later_clusters_are_kept Sample.clusters 100 1 [1; 2; 4]
              [[1]] [[2; 3]; [4]] eq_refl ltac:(discriminate) eq_refl
              eq_refl H3) as (st' & Hrun & Hrel & Hkeep & _).
  exists st'. split_and!; [exact Hrun | exact Hrel | exact Hkeep].
Defined.

(** X13.  [free_category_indices] and [free_distances] on two arrays whose
    rows are all distinct can be called in either order: both orders return
    normally and leave the same memory, the initial one without the
    non-null rows of the two arrays. *)
Theorem X13_category_and_distance_release_commute
    (st : state) (b1 b2 : addr) (c n : N) (s1 s2 : list addr) :
  heap st !! b1 = Some (BPtrs s1) → heap st !! b2 = Some (BPtrs s2) →
  b1 ≠ NULL → b2 ≠ NULL →
  N.to_nat c = length s1 → N.to_nat n = length s2 →
  owns_rows (heap st) (s1 ++ s2) = true →
  ∃ sa sb,
    (free_category_indices c b1 ;; free_distances n b2) st = Ok tt sa ∧
    (free_distances n b2 ;; free_category_indices c b1) st = Ok tt sb ∧
    heap sa = heap sb ∧
    heap sa = drop_blocks (heap st) (non_null (s1 ++ s2)) ∧
    releases_of (events_since st sa) = non_null s1 ++ non_null s2 ∧
    releases_of (events_since st sb) = non_null s2 ++ non_null s1.
Proof.
  intros Hb1 Hb2 Hn1 Hn2 Hc Hn Hown.
  apply owns_rows_inv in Hown as [Hnd Hdata].
  rewrite non_null_app in *.
  assert (NoDup (non_null s2 ++ non_null s1)) as Hnd'.
  { by rewrite (Permutation_app_comm (non_null s2) (non_null s1)). }
  assert (∀ p, p ∈ non_null s2 ++ non_null s1 → heap st !! p = Some BData)
    as Hdata'.
  { intros p Hp. apply Hdata. apply elem_of_app.
    apply elem_of_app in Hp as [Hp|Hp]; [by right|by left]. }
  unfold free_category_indices, free_distances.
  eexists _, _. split; [|split].
  - by apply (two_slot_arrays st b1 b2 c n s1 s2).
  - by apply (two_slot_arrays st b2 b1 n c s2 s1).
  - cbn [heap]. split_and!.
    + apply drop_blocks_perm, Permutation_app_comm.
    + done.
    + rewrite events_since_app, releases_of_app,
        !releases_of_release_trace, !slot_of_N_seq_0 by lia.
      by rewrite Hc, Hn, !firstn_all.
    + rewrite events_since_app, releases_of_app,
        !releases_of_release_trace, !slot_of_N_seq_0 by lia.
      by rewrite Hc, Hn, !firstn_all.
Qed.

Lemma X13_witness :
  (heap Sample2.two_arrays !! 100 = Some (BPtrs [0; 5; 6]) ∧
   heap Sample2.two_arrays !! 200 = Some (BPtrs [7; 0]) ∧
   100 ≠ NULL ∧ 200 ≠ NULL ∧
   N.to_nat 3 = length [0; 5; 6] ∧ N.to_nat 2 = length [7; 0] ∧
   owns_rows (heap Sample2.two_arrays) ([0; 5; 6] ++ [7; 0]) = true) ∧
  ∃ sa sb,
    (free_category_indices 3 100 ;; free_distances 2 200) Sample2.two_arrays
      = Ok tt sa ∧
    (free_distances 2 200 ;; free_category_indices 3 100) Sample2.two_arrays
      = Ok tt sb ∧
    heap sa = heap sb.
Proof.
  split; [split_and!; (reflexivity || discriminate)|].
  destruct (X13_category_and_distance_release_commute Sample2.two_arrays
              100 200 3 2 [0; 5; 6] [7; 0]
              eq_refl eq_refl ltac:(discriminate) ltac:(discriminate)
              eq_refl eq_refl eq_refl)
    as (sa & sb & Ha & Hb & Heq & _).
  exists sa, sb. split_and!; [exact Ha | exact Hb | exact Heq].
Defined.

(** X14.  [free_cluster_list] stops on every memory, well-formed or not:
    each iteration of the inner loop releases a live block, so with more
    fuel than there are live blocks the loop never stops for lack of fuel,
    and the whole call either returns or meets an undefined behaviour. *)
Theorem X14_free_cluster_list_always_stops :
  (∀ (st : state) (p : addr) (it fuel : nat),
     (size (heap st) < fuel)%nat → while_next fuel p it st ≠ Timeout) ∧
  (∀ (k : N) (base : addr) (st : state),
     (∃ st', free_cluster_list k base st = Ok tt st') ∨
     (∃ f, free_cluster_list k base st = Fault f)).
Proof.
  split.
  - intros st p it fuel Hfuel. by apply while_next_total.
  - intros k base st.
    pose proof (free_cluster_list_total k base st) as Htot.
    destruct (free_cluster_list k base st) as [[] st'|f|]; [eauto..|done].
Qed.

Lemma X14_witness :
  (size (heap Sample2.lasso) < 5)%nat ∧
  while_next 5 1 0 Sample2.lasso ≠ Timeout.
Proof.
  assert (size (heap Sample2.lasso) < 5)%nat as H by (vm_compute; lia).
  split; [exact H|].
  exact (proj1 X14_free_cluster_list_always_stops Sample2.lasso 1 0%nat 5%nat H).
Defined.

(** X15.  Whatever the memory holds, a call of [free_category_indices] or
    [free_distances] that returns has released only non-null pointers held
    by slots of index below [c]; the memory afterwards is the initial one
    without them.  The array of slots itself is not released, and is as it
    was, unless one of those slots holds the address of the array. *)
Theorem X15_slot_release_keeps_the_array
    (st : state) (base : addr) (c : N) (st' : state) :
  free_category_indices c base st = Ok tt st' ∨
  free_distances c base st = Ok tt st' →
  heap st' = drop_blocks (heap st) (releases_of (events_since st st')) ∧
  (∀ p, p ∈ releases_of (events_since st st') →
     ∃ slots j, heap st !! base = Some (BPtrs slots) ∧ (j < c)%N ∧
                slots !! N.to_nat j = Some p ∧ p ≠ NULL) ∧
  ((∀ slots j, heap st !! base = Some (BPtrs slots) → (j < c)%N →
               slots !! N.to_nat j ≠ Some base) →
   (EvRelease base ∉ events_since st st') ∧
   heap st' !! base = heap st !! base).
Proof.
  intros Hrun.
  assert (slots_inv st base c st') as (t & Ht & Hh & Hrel).
  { destruct Hrun as [Hrun|Hrun]; by apply for_upto_slots_inv. }
  assert (events_since st st' = t) as ->.
  { unfold events_since. by rewrite Ht, drop_app_length. }
  split_and!; [done..|].
  intros Hfresh.
  assert (base ∉ releases_of t) as Hbase.
  { intros (slots & j & Hs & Hj & Hp & _)%Hrel.
    by apply (Hfresh slots j). }
  split.
  - by rewrite <- elem_of_releases_of.
  - by rewrite Hh, lookup_drop_blocks, decide_False.
Qed.

Lemma X15_witness :
  free_distances 2 200 Sample2.two_arrays =
    Ok tt (State (list_to_map
                    [(100, BPtrs [0; 5; 6]); (200, BPtrs [7; 0]);
                     (5, BData); (6, BData)])
                 [EvIndex 200 0; EvRelease 7; EvIndex 200 1]) ∧
  ∀ p, p ∈ releases_of (events_since Sample2.two_arrays
                          (State (list_to_map
                                    [(100, BPtrs [0; 5; 6]);
                                     (200, BPtrs [7; 0]);
                                     (5, BData); (6, BData)])
                                 [EvIndex 200 0; EvRelease 7; EvIndex 200 1]))
       → p ≠ NULL.
Proof.
  assert (free_distances 2 200 Sample2.two_arrays =
    Ok tt (State (list_to_map
                    [(100, BPtrs [0; 5; 6]); (200, BPtrs [7; 0]);
                     (5, BData); (6, BData)])
                 [EvIndex 200 0; EvRelease 7; EvIndex 200 1])) as Hrun
    by (vm_compute; reflexivity).
  split; [exact Hrun|].
  intros p Hp.
  destruct (X15_slot_release_keeps_the_array Sample2.two_arrays 200 2 _
              (or_intror Hrun)) as (_ & Hrel & _).
  by destruct (Hrel p Hp) as (slots & j & _ & _ & _ & Hnn).
Defined.
